(** * A shallow embedding of the tokenizer of [lexer-advanced.cpp]

    The file follows the source top-down: the [TokenType] enumeration, the
    keyword table, the [Token] record, the [Lexer] class with its three
    member functions [next], [identifier] and [number], and then the
    properties of the scanner.

    Modelling conventions.
    - [std::string] is Rocq's [string]; a [char] is an [ascii].
    - [int] (the cursor fields [m_pos] and [m_start]) is a [Z] kept in
      [-2^31, 2^31) by [wrap_int], which is applied at every arithmetic
      operation the source performs on an [int].  [size_t] is a [Z] in
      [0, 2^64); an [int] compared with or passed as a [size_t] goes
      through [to_size_t], the conversion the language inserts.
    - The [std::out_of_range] exception of the substring constructor and
      the exhaustion of the loop budget are two distinct abnormal results
      of the [result] type; the theorems show that neither is ever
      produced from a state that satisfies the cursor invariant, nor
      from any state the scanner reaches on a longer source, where the
      cursor overflows.
    - [isalpha], [isalnum] and [isnumber] belong to the C library; the
      program never calls [setlocale], so they are taken in the "C"
      locale: the ASCII letters and digits, and no byte above 127. *)

From Stdlib Require Import ZArith Lia Ascii String.
From stdpp Require Import base option list strings gmap.

Local Open Scope string_scope.
Local Open Scope Z_scope.

(** ** Token kinds (lines 23-57) *)

Inductive TokenType : Type :=
| Invalid
| Identifier
| Assign
| Multiply
| Divide
| Plus
| Minus
| Greater
| GreaterEqual
| Equal
| LesserEqual
| Lesser
| BraceOpen
| BraceClose
| ParenOpen
| ParenClose
| Comma
| Colon
| SemiColon
| IntegerLiteral
| FloatLiteral
| StringLiteral
| Int
| Double
| String_
| Function
| Return
| If
| Else
| For
| Continue
| Break
| EndOfInput.

#[global] Instance TokenType_eq_dec : EqDecision TokenType.
Proof. solve_decision. Defined.

(** ** The keyword table (lines 98-109)

    [keywordTable] is the initializer list of the source, in its order;
    [keywordMap] is the [std::unordered_map] built from it. *)

Definition keywordTable : list (string * TokenType) :=
  [ ("int",      Int);
    ("double",   Double);
    ("string",   String_);
    ("function", Function);
    ("return",   Return);
    ("if",       If);
    ("else",     Else);
    ("for",      For);
    ("continue", Continue);
    ("break",    Break) ].

Definition keywordMap : gmap string TokenType := list_to_map keywordTable.

(** ** Tokens (lines 114-118) *)

Record Token : Type := mkToken {
  type   : TokenType;
  value  : string;
  line   : Z;
  column : Z
}.

(** ** Machine integers *)

Definition INT_MAX : Z := 2 ^ 31 - 1.

(** The value an [int] operation leaves in a 32-bit register.  The
    language leaves signed overflow undefined; the model takes the
    two's-complement result, the one the increment instruction leaves.
    No operation overflows on a source of at most [INT_MAX] characters. *)
Definition wrap_int (z : Z) : Z := (z + 2 ^ 31) mod 2 ^ 32 - 2 ^ 31.

(** Conversion of an [int] to the 64-bit unsigned [size_t]. *)
Definition to_size_t (z : Z) : Z := z mod 2 ^ 64.

(** ** Strings *)

(** [s.length()], a [size_t]. *)
Definition size (s : string) : Z := Z.of_nat (String.length s).

(** [s[i]] for an [int] index [i]; the element one past the end reads as
    the terminating null character. *)
Definition char_at (s : string) (i : Z) : ascii :=
  default "000"%char (String.get (Z.to_nat (to_size_t i)) s).

(** Outcome of a member function: a value, the [std::out_of_range]
    exception, or an exhausted loop budget. *)
Inductive result (A : Type) : Type :=
| Ok (a : A)
| OutOfRange
| OutOfFuel.

Arguments Ok {A} a.
Arguments OutOfRange {A}.
Arguments OutOfFuel {A}.

Definition bind {A B : Type} (m : result A) (k : A → result B) : result B :=
  match m with
  | Ok a => k a
  | OutOfRange => OutOfRange
  | OutOfFuel => OutOfFuel
  end.

Notation "'let*' x ':=' m 'in' k" := (bind m (λ x, k))
  (at level 10, x pattern, m at level 100, k at level 200).

(** [string(s, pos, n)]: the copy of at most [n] characters of [s] from
    index [pos]; raises [std::out_of_range] when [pos > s.size()].  Both
    arguments are [int]s at the call sites and are converted to [size_t]. *)
Definition string_sub (s : string) (pos n : Z) : result string :=
  let p := to_size_t pos in
  let n := to_size_t n in
  if size s <? p then OutOfRange
  else Ok (substring (Z.to_nat p) (Z.to_nat (Z.min n (size s - p))) s).

(** ** Character classes of the C library, "C" locale *)

Definition in_range (lo hi c : ascii) : bool :=
  Ascii.leb lo c && Ascii.leb c hi.

Definition isalpha (c : ascii) : bool :=
  in_range "A" "Z" c || in_range "a" "z" c.

Definition isnumber (c : ascii) : bool := in_range "0" "9" c.

Definition isalnum (c : ascii) : bool := isalpha c || isnumber c.

(** The test of line 153. *)
Definition is_blank (c : ascii) : bool :=
  Ascii.eqb c " " || Ascii.eqb c "010" || Ascii.eqb c "013" || Ascii.eqb c "009".

(** ** The lexer (lines 124-285) *)

Record Lexer : Type := mkLexer {
  m_source : string;
  m_pos    : Z;
  m_start  : Z
}.

(** The constructor of line 128. *)
Definition Lexer_new (source : string) : Lexer :=
  {| m_source := source; m_pos := 0; m_start := 0 |}.

Definition set_pos (lx : Lexer) (p : Z) : Lexer :=
  {| m_source := m_source lx; m_pos := p; m_start := m_start lx |}.

(** Loop budget of the inner loops: each of them stops at the end of the
    source at the latest. *)
Definition budget (s : string) : nat := S (String.length s).

Arguments budget : simpl never.

(** [while (m_pos < m_source.length() && p(m_source[m_pos])) m_pos++;]
    the loop of [identifier] (line 254, [p = isalnum]) and of [number]
    (line 271, [p = isnumber]). *)
Fixpoint advance_while (p : ascii → bool) (fuel : nat) (src : string) (pos : Z)
  : result Z :=
  if (to_size_t pos <? size src) && p (char_at src pos) then
    match fuel with
    | O => OutOfFuel
    | S fuel' => advance_while p fuel' src (wrap_int (pos + 1))
    end
  else Ok pos.

(** [while (++m_pos < len && m_source[m_pos] != '\n');] (line 162) *)
Fixpoint skip_comment (fuel : nat) (src : string) (pos : Z) : result Z :=
  let pos := wrap_int (pos + 1) in
  if (to_size_t pos <? size src) && negb (Ascii.eqb (char_at src pos) "010") then
    match fuel with
    | O => OutOfFuel
    | S fuel' => skip_comment fuel' src pos
    end
  else Ok pos.

(** [Lexer::identifier] (lines 250-263) *)
Definition identifier (lx : Lexer) : result (Token * Lexer) :=
  let* pos := advance_while isalnum (budget (m_source lx)) (m_source lx) (m_pos lx) in
  let lx := set_pos lx pos in
  let* lexeme :=
    string_sub (m_source lx) (m_start lx) (wrap_int (m_pos lx - m_start lx)) in
  match keywordMap !! lexeme with
  | Some kw => Ok ({| type := kw; value := lexeme; line := 0; column := 0 |}, lx)
  | None =>
      Ok ({| type := Identifier; value := lexeme; line := 0; column := 0 |}, lx)
  end.

(** [Lexer::number] (lines 267-275) *)
Definition number (lx : Lexer) : result (Token * Lexer) :=
  let* pos := advance_while isnumber (budget (m_source lx)) (m_source lx) (m_pos lx) in
  let lx := set_pos lx pos in
  let* lexeme :=
    string_sub (m_source lx) (m_start lx) (wrap_int (m_pos lx - m_start lx)) in
  Ok ({| type := IntegerLiteral; value := lexeme; line := 0; column := 0 |}, lx).

(** The [switch] of lines 175-239: the kind it selects, and whether the
    selected case executes [m_pos++]. *)
Definition operator (ch next : ascii) : TokenType * bool :=
  if Ascii.eqb ch "=" then
    if Ascii.eqb next "=" then (Equal, true) else (Assign, false)
  else if Ascii.eqb ch "*" then (Multiply, false)
  else if Ascii.eqb ch "/" then (Divide, false)
  else if Ascii.eqb ch "+" then (Plus, false)
  else if Ascii.eqb ch "-" then (Minus, false)
  else if Ascii.eqb ch ">" then
    if Ascii.eqb next "=" then (GreaterEqual, true) else (Greater, false)
  else if Ascii.eqb ch "<" then
    if Ascii.eqb next "=" then (LesserEqual, true) else (Lesser, false)
  else if Ascii.eqb ch "{" then (BraceOpen, false)
  else if Ascii.eqb ch "}" then (BraceClose, false)
  else if Ascii.eqb ch "(" then (ParenOpen, false)
  else if Ascii.eqb ch ")" then (ParenClose, false)
  else if Ascii.eqb ch "," then (Comma, false)
  else if Ascii.eqb ch ":" then (Colon, false)
  else if Ascii.eqb ch ";" then (SemiColon, false)
  else (Invalid, false).

(** What one pass through the body of the [while] loop of [next] ends
    with: a [continue] or a [return]. *)
Inductive flow : Type :=
| Continue_ (lx : Lexer)
| Return_ (t : Token) (lx : Lexer).

(** The body of the loop of [next] (lines 144-240), entered with
    [m_pos < len]. *)
Definition iteration (lx : Lexer) : result flow :=
  let src := m_source lx in
  let len := size src in
  let ch := char_at src (m_pos lx) in
  let next :=
    if to_size_t (wrap_int (m_pos lx + 1)) <? size src
    then char_at src (wrap_int (m_pos lx + 1))
    else "000"%char in
  let lx := {| m_source := src; m_pos := wrap_int (m_pos lx + 1); m_start := m_pos lx |} in
  if is_blank ch then Ok (Continue_ lx)
  else if Ascii.eqb ch "/" && (to_size_t (m_pos lx) <? len) && Ascii.eqb next "/" then
    let* pos := skip_comment (budget src) src (m_pos lx) in
    Ok (Continue_ (set_pos lx pos))
  else if isalpha ch then
    let* (t, lx) := identifier lx in Ok (Return_ t lx)
  else if isnumber ch then
    let* (t, lx) := number lx in Ok (Return_ t lx)
  else
    let '(ty, extra) := operator ch next in
    let lx := if extra then set_pos lx (wrap_int (m_pos lx + 1)) else lx in
    let* lexeme :=
      string_sub (m_source lx) (m_start lx) (wrap_int (m_pos lx - m_start lx)) in
    Ok (Return_ {| type := ty; value := lexeme; line := 0; column := 0 |} lx).

(** The token of [return { TokenType::EndOfInput, "" }] (line 138) and of
    [return { TokenType::EndOfInput }] (line 244): the members without an
    initializer are value-initialized. *)
Definition end_of_input : Token :=
  {| type := EndOfInput; value := ""; line := 0; column := 0 |}.

(** The [while] loop of [next] (lines 142-244). *)
Fixpoint next_loop (fuel : nat) (lx : Lexer) : result (Token * Lexer) :=
  if to_size_t (m_pos lx) <? size (m_source lx) then
    match fuel with
    | O => OutOfFuel
    | S fuel' =>
        let* f := iteration lx in
        match f with
        | Continue_ lx' => next_loop fuel' lx'
        | Return_ t lx' => Ok (t, lx')
        end
    end
  else Ok (end_of_input, lx).

(** [Lexer::next] (lines 132-245).  Every pass through the loop moves the
    cursor forward, so the length of the source bounds the passes. *)
Definition next (lx : Lexer) : result (Token * Lexer) :=
  if size (m_source lx) =? 0 then Ok (end_of_input, lx)
  else next_loop (String.length (m_source lx)) lx.

(** ** Drivers *)

(** The consumption protocol of [main] (line 311): call [next] until the
    token is [EndOfInput]; the tokens before it are collected in order and
    returned with the state the scanner is left in. *)
Fixpoint tokens (fuel : nat) (lx : Lexer) : result (list Token * Lexer) :=
  match fuel with
  | O => OutOfFuel
  | S fuel' =>
      let* (t, lx') := next lx in
      if decide (type t = EndOfInput) then Ok ([], lx')
      else let* (ts, lx'') := tokens fuel' lx' in Ok (t :: ts, lx'')
  end.

(** [n] successive calls of [next], with every token returned. *)
Fixpoint calls (n : nat) (lx : Lexer) : result (list Token * Lexer) :=
  match n with
  | O => Ok ([], lx)
  | S n' =>
      let* (t, lx') := next lx in
      let* (ts, lx'') := calls n' lx' in
      Ok (t :: ts, lx'')
  end.

(** ** Vocabulary of the properties *)

(** The characters of [s] from index [a] up to, not including, index [b]. *)
Definition slice (s : string) (a b : Z) : string :=
  substring (Z.to_nat a) (Z.to_nat (b - a)) s.

(** Every character of [s] satisfies [p]. *)
Fixpoint all_chars (p : ascii → bool) (s : string) : bool :=
  match s with
  | EmptyString => true
  | String c s' => p c && all_chars p s'
  end.

Definition not_newline (c : ascii) : bool := negb (Ascii.eqb c "010").

(** The text the scanner passes over without producing a token: blanks,
    and comments that run from a double slash to the end of their line. *)
Inductive trivia : string → Prop :=
| trivia_empty : trivia ""
| trivia_blank (c : ascii) (s : string) :
    is_blank c = true → trivia s → trivia (String c s)
| trivia_comment (body s : string) :
    all_chars not_newline body = true → trivia s →
    trivia ("//" +:+ body +:+ s).

(** The cursor invariant; the last conjunct says that the source is short
    enough for an [int] to index it. *)
Definition cursor_ok (lx : Lexer) : Prop :=
  0 ≤ m_start lx ∧ m_start lx ≤ m_pos lx ∧ m_pos lx ≤ size (m_source lx) ∧
  size (m_source lx) ≤ INT_MAX.

(** The kinds on the right-hand side of the keyword table. *)
Definition is_keyword_kind (k : TokenType) : bool :=
  match k with
  | Int | Double | String_ | Function | Return | If | Else | For
  | Continue | Break => true
  | _ => false
  end.

(** The character after position [pos], as line 146 reads it. *)
Definition peek (src : string) (pos : Z) : ascii :=
  if pos + 1 <? size src then char_at src (pos + 1) else "000"%char.

(** [b] ends the longest run of characters satisfying [p] that starts at
    [a]. *)
Definition maximal_run (p : ascii → bool) (src : string) (a b : Z) : Prop :=
  a < b ∧ b ≤ size src ∧
  (∀ i, a ≤ i < b → p (char_at src i) = true) ∧
  (b < size src → p (char_at src b) = false).

(** The kind [identifier] gives to a lexeme. *)
Definition word_kind (lexeme : string) : TokenType :=
  default Identifier (keywordMap !! lexeme).

(** The number of characters the switch consumes. *)
Definition operator_width (ch nx : ascii) : Z :=
  if (operator ch nx).2 then 2 else 1.

(** The passes of the loop body over the source [src] from position
    [pos], by the class of the character found there. *)
Inductive pass (src : string) (pos : Z) : flow → Prop :=
| pass_blank :
    is_blank (char_at src pos) = true →
    pass src pos
      (Continue_ {| m_source := src; m_pos := pos + 1; m_start := pos |})
| pass_comment (q : Z) :
    is_blank (char_at src pos) = false →
    char_at src pos = "/"%char → pos + 1 < size src →
    char_at src (pos + 1) = "/"%char →
    pos + 1 < q → q ≤ size src →
    (∀ i, pos + 1 < i < q → not_newline (char_at src i) = true) →
    (q < size src → char_at src q = "010"%char) →
    pass src pos (Continue_ {| m_source := src; m_pos := q; m_start := pos |})
| pass_identifier (q : Z) :
    isalpha (char_at src pos) = true →
    maximal_run isalnum src pos q →
    pass src pos
      (Return_ {| type := word_kind (slice src pos q);
                  value := slice src pos q; line := 0; column := 0 |}
               {| m_source := src; m_pos := q; m_start := pos |})
| pass_number (q : Z) :
    isalpha (char_at src pos) = false →
    isnumber (char_at src pos) = true →
    maximal_run isnumber src pos q →
    pass src pos
      (Return_ {| type := IntegerLiteral;
                  value := slice src pos q; line := 0; column := 0 |}
               {| m_source := src; m_pos := q; m_start := pos |})
| pass_operator (w : Z) :
    is_blank (char_at src pos) = false →
    ¬ (char_at src pos = "/"%char ∧ peek src pos = "/"%char) →
    isalpha (char_at src pos) = false →
    isnumber (char_at src pos) = false →
    w = operator_width (char_at src pos) (peek src pos) →
    pos + w ≤ size src →
    pass src pos
      (Return_ {| type := (operator (char_at src pos) (peek src pos)).1;
                  value := slice src pos (pos + w); line := 0; column := 0 |}
               {| m_source := src; m_pos := pos + w; m_start := pos |}).

(** What a pass started at [m_pos lx] leaves behind. *)
Definition flow_ok (lx : Lexer) (f : flow) : Prop :=
  let src := m_source lx in
  match f with
  | Continue_ lx' =>
      m_source lx' = src ∧ m_start lx' = m_pos lx ∧
      m_pos lx < m_pos lx' ∧ m_pos lx' ≤ size src ∧
      trivia (slice src (m_pos lx) (m_pos lx'))
  | Return_ t lx' =>
      m_source lx' = src ∧ m_start lx' = m_pos lx ∧
      m_pos lx < m_pos lx' ∧ m_pos lx' ≤ size src ∧
      value t = slice src (m_pos lx) (m_pos lx') ∧
      type t ≠ EndOfInput ∧ line t = 0 ∧ column t = 0
  end.

(** What a call of [next] started in [lx] returns and leaves behind:
    either the sentinel, after nothing but trivia up to the end of the
    source, or the token that a pass of the loop body reads at the new
    start marker, after nothing but trivia up to that marker. *)
Definition next_post (lx : Lexer) (t : Token) (lx' : Lexer) : Prop :=
  let src := m_source lx in
  m_source lx' = src ∧ cursor_ok lx' ∧ m_pos lx ≤ m_pos lx' ∧
  line t = 0 ∧ column t = 0 ∧
  ((t = end_of_input ∧ m_pos lx' = size src ∧
    trivia (slice src (m_pos lx) (size src)))
   ∨
   (type t ≠ EndOfInput ∧ m_pos lx ≤ m_start lx' ∧ m_start lx' < m_pos lx' ∧
    trivia (slice src (m_pos lx) (m_start lx')) ∧
    value t = slice src (m_start lx') (m_pos lx') ∧
    pass src (m_start lx') (Return_ t lx'))).

(** The states a scanner over [src] goes through: the state the
    constructor builds, and the state every call of [next] leaves. *)
Inductive reachable (src : string) : Lexer → Prop :=
| reachable_new : reachable src (Lexer_new src)
| reachable_next (lx : Lexer) (t : Token) (lx' : Lexer) :
    reachable src lx → next lx = Ok (t, lx') → reachable src lx'.

(** The loop of [main] once more, recording for every call the text it
    passed over and the lexeme it returned.  The text passed over by a
    call that returns a token lies between the cursor before the call and
    the new start marker; the call that returns the sentinel passes over
    everything up to the new cursor. *)
Fixpoint spans (fuel : nat) (lx : Lexer) : result (list (string * string)) :=
  match fuel with
  | O => OutOfFuel
  | S fuel' =>
      let* (t, lx') := next lx in
      if decide (type t = EndOfInput)
      then Ok [(slice (m_source lx) (m_pos lx) (m_pos lx'), value t)]
      else
        let* rest := spans fuel' lx' in
        Ok ((slice (m_source lx) (m_pos lx) (m_start lx'), value t) :: rest)
  end.

(** The skipped texts and the lexemes, concatenated in source order. *)
Definition join (ps : list (string * string)) : string :=
  foldr (λ p acc, p.1 +:+ p.2 +:+ acc) "" ps.



(** ** Further vocabulary *)


(** The kinds the switch can select. *)
Definition is_operator_kind (k : TokenType) : bool :=
  match k with
  | Invalid | Assign | Multiply | Divide | Plus | Minus | Greater
  | GreaterEqual | Equal | LesserEqual | Lesser | BraceOpen | BraceClose
  | ParenOpen | ParenClose | Comma | Colon | SemiColon => true
  | _ => false
  end.

(** ** Sources longer than the cursor can count *)

(** The longest [std::string] there can be: on a target whose [size_t]
    has 64 bits, [max_size()] does not exceed [PTRDIFF_MAX], the largest
    size of an object. *)
Definition string_max_size : Z := 2 ^ 63 - 1.

(** The values an [int] can hold. *)
Definition is_int (z : Z) : Prop := - 2 ^ 31 ≤ z ≤ INT_MAX.

(** What a pass or a call started in [lx] leaves in [lx'] on any source:
    the same source, and a cursor that is further on, or negative once an
    increment has gone past [INT_MAX]. *)
Definition moved_on (lx lx' : Lexer) : Prop :=
  m_source lx' = m_source lx ∧ is_int (m_pos lx') ∧
  (m_pos lx' < 0 ∨ m_pos lx < m_pos lx').

(** The state a pass ends in. *)
Definition flow_state (f : flow) : Lexer :=
  match f with
  | Continue_ lx' => lx'
  | Return_ _ lx' => lx'
  end.

(** [n] blanks. *)
Fixpoint blanks (n : nat) : string :=
  match n with
  | O => ""
  | S n' => String " " (blanks n')
  end.

(** A source of [2^31] blanks followed by the letter [x]; the letter
    stands at index [INT_MAX + 1]. *)
Definition beyond_int : string := blanks (Z.to_nat (2 ^ 31)) +:+ "x".

(** The state of the scanner over [src] after the increment of line 150
    has been applied to a cursor that stood at [INT_MAX]. *)
Definition overflowed (src : string) : Lexer :=
  {| m_source := src; m_pos := - 2 ^ 31; m_start := INT_MAX |}.

(** ** The display table (lines 59-93) and [main] (lines 290-316) *)

(** The enumerators in their order of declaration, which is the order of
    the keys of the [std::map]. *)
Definition TokenType_to_nat (k : TokenType) : nat :=
  match k with
  | Invalid => 0 | Identifier => 1 | Assign => 2 | Multiply => 3
  | Divide => 4 | Plus => 5 | Minus => 6 | Greater => 7
  | GreaterEqual => 8 | Equal => 9 | LesserEqual => 10 | Lesser => 11
  | BraceOpen => 12 | BraceClose => 13 | ParenOpen => 14 | ParenClose => 15
  | Comma => 16 | Colon => 17 | SemiColon => 18 | IntegerLiteral => 19
  | FloatLiteral => 20 | StringLiteral => 21 | Int => 22 | Double => 23
  | String_ => 24 | Function => 25 | Return => 26 | If => 27 | Else => 28
  | For => 29 | Continue => 30 | Break => 31 | EndOfInput => 32
  end%nat.

Definition TokenType_of_nat (n : nat) : TokenType :=
  match n with
  | 0 => Invalid | 1 => Identifier | 2 => Assign | 3 => Multiply
  | 4 => Divide | 5 => Plus | 6 => Minus | 7 => Greater
  | 8 => GreaterEqual | 9 => Equal | 10 => LesserEqual | 11 => Lesser
  | 12 => BraceOpen | 13 => BraceClose | 14 => ParenOpen | 15 => ParenClose
  | 16 => Comma | 17 => Colon | 18 => SemiColon | 19 => IntegerLiteral
  | 20 => FloatLiteral | 21 => StringLiteral | 22 => Int | 23 => Double
  | 24 => String_ | 25 => Function | 26 => Return | 27 => If | 28 => Else
  | 29 => For | 30 => Continue | 31 => Break | _ => EndOfInput
  end%nat.

#[global] Instance TokenType_countable : Countable TokenType.
Proof.
  refine (inj_countable' TokenType_to_nat TokenType_of_nat _).
  intros k. destruct k; reflexivity.
Defined.

(** The initializer list of [tokenTypeMap], in its order. *)
Definition tokenTypeTable : list (TokenType * string) :=
  [ (Invalid,        "<Invalid>");
    (Identifier,     "<Identifier>");
    (Assign,         "=");
    (Multiply,       "*");
    (Divide,         "/");
    (Plus,           "+");
    (Minus,          "-");
    (Greater,        ">");
    (GreaterEqual,   ">=");
    (Equal,          "==");
    (LesserEqual,    "<=");
    (Lesser,         "<");
    (BraceOpen,      "{");
    (BraceClose,     "}");
    (ParenOpen,      "(");
    (ParenClose,     ")");
    (Comma,          ",");
    (Colon,          ":");
    (SemiColon,      ";");
    (IntegerLiteral, "<Integer Literal>");
    (FloatLiteral,   "<Float Literal>");
    (StringLiteral,  "<String Literal>");
    (Int,            "int");
    (Double,         "double");
    (String_,        "string");
    (Function,       "function");
    (Return,         "return");
    (If,             "if");
    (Else,           "else");
    (For,            "for");
    (Continue,       "continue");
    (Break,          "break");
    (EndOfInput,     "<End-Of-Input>") ].

Definition tokenTypeMap : gmap TokenType string := list_to_map tokenTypeTable.

(** [m[k]] on a [std::map]: the string stored under [k]; a key that is
    missing is first inserted with the empty string. *)
Definition map_index (m : gmap TokenType string) (k : TokenType)
  : string * gmap TokenType string :=
  match m !! k with
  | Some name => (name, m)
  | None => ("", <[k := ""]> m)
  end.

(** The line feed, and the double quote. *)
Definition LF : string := String "010" "".
Definition QUOTE : string := String "034" "".

(** The [for] loop of [main] (lines 311-313), over the lexer, the display
    table and the text written to [cout] so far. *)
Fixpoint print_loop (fuel : nat) (lexer : Lexer)
    (names : gmap TokenType string) (cout : string)
  : result (string * gmap TokenType string) :=
  match fuel with
  | O => OutOfFuel
  | S fuel' =>
      let* (t, lexer') := next lexer in
      if decide (type t = EndOfInput) then Ok (cout, names)
      else
        let '(name, names') := map_index names (type t) in
        print_loop fuel' lexer' names'
          ((((cout +:+ name) +:+ " : ") +:+ value t) +:+ LF)
  end.

(** The source text of lines 294-301. *)
Definition program : string :=
  "function fib(int n) : int {" +:+ LF +:+
  "    if (n == 0) return 0;" +:+ LF +:+
  "    else if (n == 1) return 1;" +:+ LF +:+
  "    return fib(n - 1) + fib(n - 2);" +:+ LF +:+
  "}" +:+ LF +:+
  "function main() {" +:+ LF +:+
  "    print(" +:+ QUOTE +:+ "fibonacci 10 = " +:+ QUOTE +:+ ", fib(10));"
  +:+ LF +:+
  "}".

(** [main]: the exit status and the text written to [cout]. *)
Definition main : result (Z * string) :=
  let* (cout, _) :=
    print_loop (budget program) (Lexer_new program) tokenTypeMap "" in
  Ok (0, cout).

(** The line [main] writes for a token, and the lines for a list of
    tokens. *)
Definition line_of (t : Token) : string :=
  default "" (tokenTypeMap !! type t) +:+ " : " +:+ value t +:+ LF.

Definition render (ts : list Token) : string :=
  foldr (λ t acc, line_of t +:+ acc) "" ts.

(** * The first version of the scanner, [lexer.cpp]

    The file declares its own [Kind], [Token] and [Lexer]; they live in
    the module [Simple].  The two inner loops, the substring constructor
    and the character classes are those of the other file, character for
    character, and are shared. *)

Module Simple.

(** ** Kinds (lines 22-29) and their names (lines 33-40) *)

Inductive Kind : Type :=
| Invalid
| Identifier
| Divide
| Assign
| Number
| EndOfInput.

#[global] Instance Kind_eq_dec : EqDecision Kind.
Proof. solve_decision. Defined.

Definition Kind_to_nat (k : Kind) : nat :=
  match k with
  | Invalid => 0 | Identifier => 1 | Divide => 2 | Assign => 3
  | Number => 4 | EndOfInput => 5
  end%nat.

Definition Kind_of_nat (n : nat) : Kind :=
  match n with
  | 0 => Invalid | 1 => Identifier | 2 => Divide | 3 => Assign
  | 4 => Number | _ => EndOfInput
  end%nat.

#[global] Instance Kind_countable : Countable Kind.
Proof.
  refine (inj_countable' Kind_to_nat Kind_of_nat _).
  intros k. destruct k; reflexivity.
Defined.

Definition kindTable : list (Kind * string) :=
  [ (Invalid,    "Invalid");
    (Identifier, "Identifier");
    (Divide,     "Divide");
    (Assign,     "Assign");
    (Number,     "Number");
    (EndOfInput, "End-Of-Input") ].

Definition kindMap : gmap Kind string := list_to_map kindTable.

(** ** Tokens (lines 45-48) *)

Record Token : Type := mkToken {
  kind  : Kind;
  value : string
}.

(** ** The lexer (lines 54-152) *)

Record Lexer : Type := mkLexer {
  m_source : string;
  m_pos    : Z;
  m_start  : Z
}.

(** The constructor of line 58. *)
Definition Lexer_new (source : string) : Lexer :=
  {| m_source := source; m_pos := 0; m_start := 0 |}.

Definition set_pos (lx : Lexer) (p : Z) : Lexer :=
  {| m_source := m_source lx; m_pos := p; m_start := m_start lx |}.

(** [Lexer::identifier] (lines 122-130) *)
Definition identifier (lx : Lexer) : result (Token * Lexer) :=
  let* pos := advance_while isalnum (budget (m_source lx)) (m_source lx) (m_pos lx) in
  let lx := set_pos lx pos in
  let* lexeme :=
    string_sub (m_source lx) (m_start lx) (wrap_int (m_pos lx - m_start lx)) in
  Ok ({| kind := Identifier; value := lexeme |}, lx).

(** [Lexer::number] (lines 134-142) *)
Definition number (lx : Lexer) : result (Token * Lexer) :=
  let* pos := advance_while isnumber (budget (m_source lx)) (m_source lx) (m_pos lx) in
  let lx := set_pos lx pos in
  let* lexeme :=
    string_sub (m_source lx) (m_start lx) (wrap_int (m_pos lx - m_start lx)) in
  Ok ({| kind := Number; value := lexeme |}, lx).

(** The [switch] of lines 101-111. *)
Definition operator (ch : ascii) : Kind :=
  if Ascii.eqb ch "=" then Assign
  else if Ascii.eqb ch "/" then Divide
  else Invalid.

Inductive flow : Type :=
| Continue_ (lx : Lexer)
| Return_ (t : Token) (lx : Lexer).

(** The body of the loop of [next] (lines 74-112), entered with
    [m_pos < len]. *)
Definition iteration (lx : Lexer) : result flow :=
  let src := m_source lx in
  let len := size src in
  let ch := char_at src (m_pos lx) in
  let lx := {| m_source := src; m_pos := wrap_int (m_pos lx + 1); m_start := m_pos lx |} in
  if is_blank ch then Ok (Continue_ lx)
  else if Ascii.eqb ch "/" && (to_size_t (m_pos lx) <? len)
          && Ascii.eqb (char_at src (m_pos lx)) "/" then
    let* pos := skip_comment (budget src) src (m_pos lx) in
    Ok (Continue_ (set_pos lx pos))
  else if isalpha ch then
    let* (t, lx) := identifier lx in Ok (Return_ t lx)
  else if isnumber ch then
    let* (t, lx) := number lx in Ok (Return_ t lx)
  else
    let* lexeme := string_sub (m_source lx) (m_start lx) 1 in
    Ok (Return_ {| kind := operator ch; value := lexeme |} lx).

(** The token of lines 68 and 116. *)
Definition end_of_input : Token := {| kind := EndOfInput; value := "" |}.

(** The [while] loop of [next] (lines 72-116). *)
Fixpoint next_loop (fuel : nat) (lx : Lexer) : result (Token * Lexer) :=
  if to_size_t (m_pos lx) <? size (m_source lx) then
    match fuel with
    | O => OutOfFuel
    | S fuel' =>
        let* f := iteration lx in
        match f with
        | Continue_ lx' => next_loop fuel' lx'
        | Return_ t lx' => Ok (t, lx')
        end
    end
  else Ok (end_of_input, lx).

(** [Lexer::next] (lines 62-117). *)
Definition next (lx : Lexer) : result (Token * Lexer) :=
  if size (m_source lx) =? 0 then Ok (end_of_input, lx)
  else next_loop (String.length (m_source lx)) lx.

(** ** [main] (lines 157-177) *)

(** [m[k]] on the [std::map]. *)
Definition map_index (m : gmap Kind string) (k : Kind)
  : string * gmap Kind string :=
  match m !! k with
  | Some name => (name, m)
  | None => ("", <[k := ""]> m)
  end.

(** The [for] loop of lines 172-174. *)
Fixpoint print_loop (fuel : nat) (lexer : Lexer)
    (names : gmap Kind string) (cout : string)
  : result (string * gmap Kind string) :=
  match fuel with
  | O => OutOfFuel
  | S fuel' =>
      let* (t, lexer') := next lexer in
      if decide (kind t = EndOfInput) then Ok (cout, names)
      else
        let '(name, names') := map_index names (kind t) in
        print_loop fuel' lexer' names'
          ((((cout +:+ name) +:+ " : ") +:+ value t) +:+ LF)
  end.

(** The source text of lines 162-163. *)
Definition expression : string :=
  "rad = // calculate 1 radii" +:+ LF +:+ "pi / 180".

Definition main : result (Z * string) :=
  let* (cout, _) :=
    print_loop (budget expression) (Lexer_new expression) kindMap "" in
  Ok (0, cout).

(** The tokens the loop of [main] sees. *)
Fixpoint tokens (fuel : nat) (lx : Lexer) : result (list Token * Lexer) :=
  match fuel with
  | O => OutOfFuel
  | S fuel' =>
      let* (t, lx') := next lx in
      if decide (kind t = EndOfInput) then Ok ([], lx')
      else let* (ts, lx'') := tokens fuel' lx' in Ok (t :: ts, lx'')
  end.

(** The texts passed over and the lexemes, call by call. *)
Fixpoint spans (fuel : nat) (lx : Lexer) : result (list (string * string)) :=
  match fuel with
  | O => OutOfFuel
  | S fuel' =>
      let* (t, lx') := next lx in
      if decide (kind t = EndOfInput)
      then Ok [(slice (m_source lx) (m_pos lx) (m_pos lx'), value t)]
      else
        let* rest := spans fuel' lx' in
        Ok ((slice (m_source lx) (m_pos lx) (m_start lx'), value t) :: rest)
  end.

(** The line [main] writes for a token. *)
Definition line_of (t : Token) : string :=
  default "" (kindMap !! kind t) +:+ " : " +:+ value t +:+ LF.

Definition render (ts : list Token) : string :=
  foldr (λ t acc, line_of t +:+ acc) "" ts.

(** The cursor invariant. *)
Definition cursor_ok (lx : Lexer) : Prop :=
  0 ≤ m_start lx ∧ m_start lx ≤ m_pos lx ∧ m_pos lx ≤ size (m_source lx) ∧
  size (m_source lx) ≤ INT_MAX.

(** The states a scanner over [src] goes through. *)
Inductive reachable (src : string) : Lexer → Prop :=
| reachable_new : reachable src (Lexer_new src)
| reachable_next (lx : Lexer) (t : Token) (lx' : Lexer) :
    reachable src lx → next lx = Ok (t, lx') → reachable src lx'.

End Simple.

(** ** The two scanners side by side *)

(** A state of the first scanner as a state of the second, and back. *)
Definition to_simple (lx : Lexer) : Simple.Lexer :=
  {| Simple.m_source := m_source lx;
     Simple.m_pos := m_pos lx;
     Simple.m_start := m_start lx |}.

Definition of_simple (lx : Simple.Lexer) : Lexer :=
  {| m_source := Simple.m_source lx;
     m_pos := Simple.m_pos lx;
     m_start := Simple.m_start lx |}.

(** The kinds of the two-character operators. *)
Definition is_two_char (k : TokenType) : bool :=
  match k with
  | Equal | GreaterEqual | LesserEqual => true
  | _ => false
  end.

(** The kind the first scanner gives to the text, or to the first
    character of the text, to which the second one gives kind [k]. *)
Definition simple_kind (k : TokenType) : Simple.Kind :=
  match k with
  | Identifier | Int | Double | String_ | Function | Return | If | Else
  | For | Continue | Break => Simple.Identifier
  | IntegerLiteral => Simple.Number
  | Assign | Equal => Simple.Assign
  | Divide => Simple.Divide
  | EndOfInput => Simple.EndOfInput
  | _ => Simple.Invalid
  end.

Definition simple_token (t : Token) : Simple.Token :=
  {| Simple.kind := simple_kind (type t);
     Simple.value :=
       if is_two_char (type t) then substring 0 1 (value t) else value t |}.

Definition simple_state (t : Token) (lx' : Lexer) : Simple.Lexer :=
  to_simple
    (if is_two_char (type t) then set_pos lx' (m_start lx' + 1) else lx').

(** What a pass of the second scanner becomes in the first. *)
Definition simple_flow (f : flow) : Simple.flow :=
  match f with
  | Continue_ lx => Simple.Continue_ (to_simple lx)
  | Return_ t lx => Simple.Return_ (simple_token t) (simple_state t lx)
  end.

(** * Properties *)

(** ** Machine integers in range *)

Lemma wrap_int_id (z : Z) : - 2 ^ 31 ≤ z ≤ INT_MAX → wrap_int z = z.
Proof.
  unfold wrap_int, INT_MAX. intros H.
  rewrite Z.mod_small by lia. lia.
Qed.

Lemma to_size_t_id (z : Z) : 0 ≤ z ≤ INT_MAX → to_size_t z = z.
Proof.
  unfold to_size_t, INT_MAX. intros H.
  apply Z.mod_small. lia.
Qed.

(** Past [INT_MAX] the increment of line 150 does not give the next
    position. *)
Example increment_wraps : wrap_int (INT_MAX + 1) = - 2 ^ 31.
Proof. reflexivity. Qed.

(** ** Proof automation *)

Ltac int_norm :=
  repeat match goal with
  | |- context [wrap_int ?z] =>
      rewrite (wrap_int_id z) by (unfold INT_MAX in *; lia)
  | |- context [to_size_t ?z] =>
      rewrite (to_size_t_id z) by (unfold INT_MAX in *; lia)
  end.

Ltac lx_simpl := cbn [m_source m_pos m_start set_pos bind fst snd].

Ltac by_cases_on c :=
  destruct c as [[|] [|] [|] [|] [|] [|] [|] [|]]; vm_compute; intros; try done.

Ltac concrete_cursor := unfold cursor_ok, INT_MAX, size; simpl; lia.


(** ** Substrings *)

Lemma append_cons (c : ascii) (s1 s2 : string) :
  String c s1 +:+ s2 = String c (s1 +:+ s2).
Proof. reflexivity. Qed.

Lemma append_empty_l (s : string) : "" +:+ s = s.
Proof. reflexivity. Qed.

Lemma append_empty_r (s : string) : s +:+ "" = s.
Proof. induction s as [|c s IH]; [reflexivity|]. by rewrite append_cons, IH. Qed.

Lemma append_assoc (s1 s2 s3 : string) :
  (s1 +:+ s2) +:+ s3 = s1 +:+ (s2 +:+ s3).
Proof.
  induction s1 as [|c s1 IH]; [reflexivity|].
  by rewrite !append_cons, IH.
Qed.

Lemma substring_zero_length (s : string) (a : nat) : substring a 0 s = "".
Proof.
  revert a. induction s as [|c s IH]; intros [|a]; simpl; auto.
Qed.

Lemma substring_split (s : string) (a n m : nat) :
  substring a (n + m) s = substring a n s +:+ substring (a + n) m s.
Proof.
  revert a n. induction s as [|c s IH]; intros a n.
  - destruct a, n, m; reflexivity.
  - destruct a as [|a]; simpl.
    + destruct n as [|n]; simpl.
      * reflexivity.
      * rewrite append_cons. f_equal. apply (IH 0%nat n).
    + apply IH.
Qed.

Lemma substring_all (s : string) : substring 0 (String.length s) s = s.
Proof. induction s as [|c s IH]; simpl; congruence. Qed.

Lemma substring_one (s : string) (a : nat) (c : ascii) :
  String.get a s = Some c → substring a 1 s = String c "".
Proof.
  revert a. induction s as [|d s IH]; intros a; simpl.
  - discriminate.
  - destruct a as [|a]; simpl.
    + intros [= ->]. by rewrite substring_zero_length.
    + apply IH.
Qed.

Lemma get_is_Some (s : string) (a : nat) :
  (a < String.length s)%nat → is_Some (String.get a s).
Proof.
  revert a. induction s as [|d s IH]; intros a; simpl.
  - lia.
  - destruct a as [|a]; [eauto|]. intros H. apply IH. lia.
Qed.


Lemma all_chars_substring (p : ascii → bool) (s : string) (a n : nat) :
  (∀ i c, (a ≤ i < a + n)%nat → String.get i s = Some c → p c = true) →
  all_chars p (substring a n s) = true.
Proof.
  revert a n. induction s as [|d s IH]; intros a n H; simpl.
  - destruct a, n; reflexivity.
  - destruct a as [|a]; simpl.
    + destruct n as [|n]; simpl; [reflexivity|].
      rewrite (H 0%nat d) by (simpl; (lia || reflexivity)). simpl.
      apply IH. intros i c Hi Hg. apply (H (S i) c); [lia|exact Hg].
    + apply IH. intros i c Hi Hg. apply (H (S i) c); [lia|exact Hg].
Qed.

Lemma all_chars_app (p : ascii → bool) (s1 s2 : string) :
  all_chars p (s1 +:+ s2) = all_chars p s1 && all_chars p s2.
Proof.
  induction s1 as [|c s1 IH]; [reflexivity|].
  rewrite append_cons. simpl. rewrite IH. by rewrite andb_assoc.
Qed.

(** ** Slices of the source *)

Lemma char_at_get (s : string) (i : Z) :
  0 ≤ i < size s → size s ≤ INT_MAX →
  String.get (Z.to_nat i) s = Some (char_at s i).
Proof.
  intros Hi Hs. unfold char_at. rewrite to_size_t_id by lia.
  destruct (get_is_Some s (Z.to_nat i)) as [c Hc]; [unfold size in Hi; lia|].
  by rewrite Hc.
Qed.

Lemma slice_empty (s : string) (a : Z) : slice s a a = "".
Proof. unfold slice. rewrite Z.sub_diag. apply substring_zero_length. Qed.

Lemma slice_split (s : string) (a b c : Z) :
  0 ≤ a → a ≤ b → b ≤ c → slice s a c = slice s a b +:+ slice s b c.
Proof.
  intros Ha Hab Hbc. unfold slice.
  replace (Z.to_nat (c - a)) with (Z.to_nat (b - a) + Z.to_nat (c - b))%nat by lia.
  rewrite substring_split. do 2 f_equal. lia.
Qed.

Lemma slice_all (s : string) : slice s 0 (size s) = s.
Proof.
  unfold slice, size. rewrite Z.sub_0_r, Nat2Z.id. apply substring_all.
Qed.

Lemma slice_one (s : string) (a : Z) :
  0 ≤ a < size s → size s ≤ INT_MAX →
  slice s a (a + 1) = String (char_at s a) "".
Proof.
  intros Ha Hs. unfold slice.
  replace (Z.to_nat (a + 1 - a)) with 1%nat by lia.
  apply substring_one. by apply char_at_get.
Qed.


Lemma all_chars_slice (p : ascii → bool) (s : string) (a b : Z) :
  0 ≤ a → b ≤ size s → size s ≤ INT_MAX →
  (∀ i, a ≤ i < b → p (char_at s i) = true) →
  all_chars p (slice s a b) = true.
Proof.
  intros Ha Hb Hs H. unfold slice. apply all_chars_substring.
  intros i c Hi Hg.
  assert (Hr : a ≤ Z.of_nat i < b) by lia.
  specialize (H _ Hr).
  rewrite <- (Nat2Z.id i) in Hg. rewrite char_at_get in Hg by lia.
  by injection Hg as <-.
Qed.

Lemma string_sub_slice (s : string) (a b : Z) :
  0 ≤ a → a ≤ b → b ≤ size s → size s ≤ INT_MAX →
  string_sub s a (b - a) = Ok (slice s a b).
Proof.
  intros Ha Hab Hb Hs. unfold string_sub, slice.
  rewrite !to_size_t_id by lia.
  destruct (Z.ltb_spec (size s) a) as [?|_]; [lia|].
  by rewrite Z.min_l by lia.
Qed.

(** ** The inner loops *)

Lemma advance_while_spec (p : ascii → bool) (src : string) (fuel : nat) (pos : Z) :
  0 ≤ pos → pos ≤ size src → size src ≤ INT_MAX →
  size src - pos ≤ Z.of_nat fuel →
  ∃ q, advance_while p fuel src pos = Ok q ∧ pos ≤ q ∧ q ≤ size src ∧
       (∀ i, pos ≤ i < q → p (char_at src i) = true) ∧
       (q < size src → p (char_at src q) = false).
Proof.
  revert pos. induction fuel as [|fuel IH]; intros pos H0 Hle Hs Hf.
  - assert (pos = size src) as -> by lia.
    exists (size src). simpl. rewrite to_size_t_id by lia.
    rewrite Z.ltb_irrefl. simpl. repeat split; lia.
  - simpl. rewrite to_size_t_id by lia.
    destruct (Z.ltb_spec pos (size src)) as [Hlt|Hge]; simpl.
    + destruct (p (char_at src pos)) eqn:Hp.
      * rewrite wrap_int_id by (unfold INT_MAX in *; lia).
        destruct (IH (pos + 1)) as (q & Hq & Hpq & Hqs & Hall & Hstop); try lia.
        exists q. repeat split; try done; try lia.
        intros i Hi. destruct (decide (i = pos)) as [->|Hne]; [done|].
        apply Hall. lia.
      * exists pos. repeat split; try done; try lia.
    + exists pos. repeat split; try done; lia.
Qed.

Lemma skip_comment_spec (src : string) (fuel : nat) (pos : Z) :
  0 ≤ pos → pos < size src → size src ≤ INT_MAX →
  size src - pos - 1 ≤ Z.of_nat fuel →
  ∃ q, skip_comment fuel src pos = Ok q ∧ pos < q ∧ q ≤ size src ∧
       (∀ i, pos < i < q → not_newline (char_at src i) = true) ∧
       (q < size src → char_at src q = "010"%char).
Proof.
  revert pos. induction fuel as [|fuel IH]; intros pos H0 Hlt Hs Hf.
  - assert (pos + 1 = size src) as Heq by lia.
    exists (size src). simpl.
    rewrite wrap_int_id by (unfold INT_MAX in *; lia).
    rewrite to_size_t_id by lia. rewrite Heq, Z.ltb_irrefl. simpl.
    repeat split; lia.
  - simpl. rewrite wrap_int_id by (unfold INT_MAX in *; lia).
    rewrite to_size_t_id by lia.
    destruct (Z.ltb_spec (pos + 1) (size src)) as [Hlt'|Hge]; simpl.
    + destruct (Ascii.eqb_spec (char_at src (pos + 1)) "010") as [Hnl|Hnl]; simpl.
      * exists (pos + 1). repeat split; try done; lia.
      * destruct (IH (pos + 1)) as (q & Hq & Hpq & Hqs & Hall & Hstop); try lia.
        exists q. repeat split; try done; try lia.
        intros i Hi. destruct (decide (i = pos + 1)) as [->|Hne].
        -- unfold not_newline. by destruct (Ascii.eqb_spec (char_at src (pos + 1)) "010").
        -- apply Hall. lia.
    + exists (pos + 1). repeat split; try done; lia.
Qed.

(** ** The keyword table and the switch *)

Lemma keywordMap_lookup (s : string) (k : TokenType) :
  keywordMap !! s = Some k ↔ (s, k) ∈ keywordTable.
Proof.
  unfold keywordMap. split.
  - apply elem_of_list_to_map_2.
  - apply elem_of_list_to_map_1.
    apply (bool_decide_unpack _). vm_compute. exact I.
Qed.

Lemma keywordMap_None (s : string) :
  keywordMap !! s = None ↔ ∀ k, (s, k) ∉ keywordTable.
Proof.
  split.
  - intros HN k Hk. apply keywordMap_lookup in Hk. congruence.
  - intros H. destruct (keywordMap !! s) as [k|] eqn:Hk; [|done].
    apply keywordMap_lookup in Hk. by destruct (H k).
Qed.

Lemma keywordTable_kind (s : string) (k : TokenType) :
  (s, k) ∈ keywordTable → is_keyword_kind k = true.
Proof.
  unfold keywordTable. rewrite !elem_of_cons, elem_of_nil.
  intros H. repeat (destruct H as [[= _ ->]|H]; [reflexivity|]). done.
Qed.

Lemma operator_extra (ch nx : ascii) (ty : TokenType) :
  operator ch nx = (ty, true) → nx = "="%char.
Proof.
  unfold operator. intros H.
  destruct (Ascii.eqb_spec nx "="); [done|].
  repeat (destruct (Ascii.eqb ch _); try discriminate H).
Qed.

Lemma operator_not_EndOfInput (ch nx : ascii) :
  (operator ch nx).1 ≠ EndOfInput.
Proof.
  unfold operator.
  destruct (Ascii.eqb nx "=");
    repeat (destruct (Ascii.eqb ch _); [discriminate|]); discriminate.
Qed.

(** ** Trivia *)

Lemma trivia_app (s1 s2 : string) : trivia s1 → trivia s2 → trivia (s1 +:+ s2).
Proof.
  intros H1 H2. induction H1 as [|c s Hc _ IH|body s Hb _ IH].
  - done.
  - rewrite append_cons. by constructor.
  - rewrite !append_assoc. by constructor.
Qed.

Lemma trivia_cons_inv (c : ascii) (s : string) :
  trivia (String c s) →
  (is_blank c = true ∧ trivia s) ∨
  (c = "/"%char ∧ ∃ s', s = String "/" s').
Proof.
  intros H. remember (String c s) as w eqn:Hw.
  destruct H as [|c0 s0 Hc Ht|body s0 Hb Ht].
  - discriminate Hw.
  - injection Hw as -> ->. by left.
  - rewrite !append_cons, append_empty_l in Hw. injection Hw as <- <-.
    right. eauto.
Qed.

(** ** One pass through the loop body *)

Lemma isalpha_class (c : ascii) :
  isalpha c = true →
  is_blank c = false ∧ Ascii.eqb c "/" = false ∧ isalnum c = true.
Proof. by_cases_on c. Qed.

Lemma isnumber_class (c : ascii) :
  isnumber c = true →
  is_blank c = false ∧ Ascii.eqb c "/" = false ∧ isalnum c = true.
Proof. by_cases_on c. Qed.

Lemma budget_enough (src : string) (pos : Z) :
  0 ≤ pos → size src - pos ≤ Z.of_nat (budget src).
Proof. unfold budget, size. lia. Qed.

Lemma identifier_spec (src : string) (pos : Z) :
  0 ≤ pos → pos < size src → size src ≤ INT_MAX →
  isalnum (char_at src pos) = true →
  ∃ q, maximal_run isalnum src pos q ∧
    identifier {| m_source := src; m_pos := pos + 1; m_start := pos |} =
    Ok ({| type := word_kind (slice src pos q);
           value := slice src pos q; line := 0; column := 0 |},
        {| m_source := src; m_pos := q; m_start := pos |}).
Proof.
  intros H0 Hlt Hs Hfirst. unfold identifier. lx_simpl.
  destruct (advance_while_spec isalnum src (budget src) (pos + 1))
    as (q & Hq & Hpq & Hqs & Hall & Hstop); try lia.
  { pose proof (budget_enough src (pos + 1)). lia. }
  exists q. split.
  - split_and!; try done; try lia.
    intros i Hi. destruct (decide (i = pos)) as [->|Hne]; [done|].
    apply Hall. lia.
  - rewrite Hq. lx_simpl. int_norm. rewrite string_sub_slice by lia. lx_simpl.
    unfold word_kind. by destruct (keywordMap !! slice src pos q).
Qed.

Lemma number_spec (src : string) (pos : Z) :
  0 ≤ pos → pos < size src → size src ≤ INT_MAX →
  isnumber (char_at src pos) = true →
  ∃ q, maximal_run isnumber src pos q ∧
    number {| m_source := src; m_pos := pos + 1; m_start := pos |} =
    Ok ({| type := IntegerLiteral;
           value := slice src pos q; line := 0; column := 0 |},
        {| m_source := src; m_pos := q; m_start := pos |}).
Proof.
  intros H0 Hlt Hs Hfirst. unfold number. lx_simpl.
  destruct (advance_while_spec isnumber src (budget src) (pos + 1))
    as (q & Hq & Hpq & Hqs & Hall & Hstop); try lia.
  { pose proof (budget_enough src (pos + 1)). lia. }
  exists q. split.
  - split_and!; try done; try lia.
    intros i Hi. destruct (decide (i = pos)) as [->|Hne]; [done|].
    apply Hall. lia.
  - rewrite Hq. lx_simpl. int_norm. by rewrite string_sub_slice by lia.
Qed.

Lemma iteration_pass (lx : Lexer) :
  0 ≤ m_pos lx → m_pos lx < size (m_source lx) → size (m_source lx) ≤ INT_MAX →
  ∃ f, iteration lx = Ok f ∧ pass (m_source lx) (m_pos lx) f.
Proof.
  destruct lx as [src pos st]. simpl. intros H0 Hlt Hs.
  unfold iteration. lx_simpl. int_norm. fold (peek src pos).
  destruct (is_blank (char_at src pos)) eqn:Hblank.
  { eexists. split; [reflexivity|]. by constructor. }
  destruct (Ascii.eqb (char_at src pos) "/" && (pos + 1 <? size src)
            && Ascii.eqb _ "/") eqn:Hcomment.
  { apply andb_prop in Hcomment as [Hc Hn]. apply andb_prop in Hc as [Hc Hin].
    apply Z.ltb_lt in Hin. unfold peek in Hn.
    rewrite (proj2 (Z.ltb_lt _ _) Hin) in Hn.
    apply Ascii.eqb_eq in Hc, Hn.
    destruct (skip_comment_spec src (budget src) (pos + 1))
      as (q & Hq & Hpq & Hqs & Hall & Hstop); try lia.
    { pose proof (budget_enough src (pos + 1)). lia. }
    rewrite Hq. lx_simpl. eexists. split; [reflexivity|].
    by apply pass_comment. }
  assert (Hnc : ¬ (char_at src pos = "/"%char ∧ peek src pos = "/"%char)).
  { intros [Hc Hn]. rewrite Hc, Hn in Hcomment. simpl in Hcomment.
    unfold peek in Hn. destruct (Z.ltb_spec (pos + 1) (size src)); done. }
  clear Hcomment.
  destruct (isalpha (char_at src pos)) eqn:Halpha.
  { destruct (identifier_spec src pos) as (q & Hrun & Hid); try done.
    { by apply isalpha_class. }
    rewrite Hid. lx_simpl. eexists. split; [reflexivity|].
    by apply pass_identifier. }
  destruct (isnumber (char_at src pos)) eqn:Hnum.
  { destruct (number_spec src pos) as (q & Hrun & Hid); try done.
    rewrite Hid. lx_simpl. eexists. split; [reflexivity|].
    by apply pass_number. }
  destruct (operator (char_at src pos) (peek src pos)) as [ty extra] eqn:Hop.
  assert (Hw : pos + operator_width (char_at src pos) (peek src pos) ≤ size src).
  { unfold operator_width. rewrite Hop. simpl. destruct extra; [|lia].
    apply operator_extra in Hop. unfold peek in Hop.
    destruct (Z.ltb_spec (pos + 1) (size src)); [lia|done]. }
  pose proof (pass_operator src pos _ Hblank Hnc Halpha Hnum eq_refl Hw) as Hpass.
  unfold operator_width in Hw, Hpass. rewrite Hop in Hw, Hpass. simpl in Hw, Hpass.
  destruct extra; lx_simpl; int_norm; rewrite string_sub_slice by lia; lx_simpl;
    eexists; (split; [reflexivity|]).
  - by replace (pos + 1 + 1) with (pos + 2) by lia.
  - done.
Qed.

Lemma word_kind_cases (lexeme : string) :
  (is_keyword_kind (word_kind lexeme) = true ∧
   (lexeme, word_kind lexeme) ∈ keywordTable)
  ∨ (word_kind lexeme = Identifier ∧ ∀ k, (lexeme, k) ∉ keywordTable).
Proof.
  unfold word_kind. destruct (keywordMap !! lexeme) as [k|] eqn:Hk; simpl.
  - left. apply keywordMap_lookup in Hk. split; [|done].
    by apply keywordTable_kind in Hk.
  - right. split; [done|]. by apply keywordMap_None.
Qed.

Lemma pass_flow_ok (lx : Lexer) (f : flow) :
  0 ≤ m_pos lx → m_pos lx < size (m_source lx) → size (m_source lx) ≤ INT_MAX →
  pass (m_source lx) (m_pos lx) f → flow_ok lx f.
Proof.
  intros H0 Hlt Hs Hpass. set (src := m_source lx) in *. set (pos := m_pos lx) in *.
  inversion Hpass as
    [ Hb | q Hb Hc Hin Hn Hpq Hqs Hall Hstop | q Ha (Hpq & Hqs & _)
    | q Ha Hn (Hpq & Hqs & _) | w Hb Hnc Ha Hn Hw Hin ]; subst f; simpl;
    fold src pos.
  - split_and!; try done; try lia.
    rewrite slice_one by lia. constructor; [done|constructor].
  - split_and!; try done; try lia.
    rewrite (slice_split src pos (pos + 1) q) by lia.
    rewrite (slice_split src (pos + 1) (pos + 1 + 1) q) by lia.
    rewrite !slice_one by lia. rewrite Hc, Hn.
    rewrite <- (append_empty_r (slice src (pos + 1 + 1) q)).
    apply (trivia_comment (slice src (pos + 1 + 1) q) "").
    + apply all_chars_slice; try lia. intros i Hi. apply Hall. lia.
    + constructor.
  - split_and!; try done; try lia.
    destruct (word_kind_cases (slice src pos q)) as [[Hk _]|[-> _]]; [|done].
    intros Heq. by rewrite Heq in Hk.
  - split_and!; try done; lia.
  - assert (1 ≤ w).
    { rewrite Hw. unfold operator_width. by destruct (operator _ _).2. }
    split_and!; try done; try lia. apply operator_not_EndOfInput.
Qed.

(** ** One call of [next] *)

Lemma next_loop_spec (fuel : nat) (lx : Lexer) :
  cursor_ok lx → size (m_source lx) - m_pos lx ≤ Z.of_nat fuel →
  ∃ t lx', next_loop fuel lx = Ok (t, lx') ∧ next_post lx t lx'.
Proof.
  revert lx. induction fuel as [|fuel IH]; intros lx Hok Hfuel;
    pose proof Hok as (Hst & Hsp & Hpl & Hfit).
  - assert (Hend : m_pos lx = size (m_source lx)) by lia.
    exists end_of_input, lx. simpl. int_norm. rewrite Hend, Z.ltb_irrefl.
    split; [done|]. unfold next_post. split_and!; try done.
    left. rewrite Hend, slice_empty. split_and!; try done. constructor.
  - simpl. int_norm.
    destruct (Z.ltb_spec (m_pos lx) (size (m_source lx))) as [Hlt|Hge].
    + destruct (iteration_pass lx) as (f & Hf & Hpass); try lia.
      pose proof (pass_flow_ok lx f ltac:(lia) Hlt Hfit Hpass) as Hflow.
      rewrite Hf. lx_simpl. destruct f as [lx1|t lx1]; simpl in Hflow.
      * destruct Hflow as (Hsrc & Hstart & Hadv & Hin & Htriv).
        destruct (IH lx1) as (t & lx' & Hnext & Hpost).
        { unfold cursor_ok. rewrite Hsrc, Hstart. lia. }
        { rewrite Hsrc. lia. }
        exists t, lx'. split; [done|].
        destruct Hpost as (Hsrc' & Hok' & Hmono & Hl & Hc & Hcases).
        rewrite Hsrc in *. unfold next_post. split_and!; try done; try lia.
        destruct Hcases as [(-> & Hp' & Htr)|(Hty & Hps & Hsp' & Htr & Hval & Hit)].
        -- left. split_and!; try done.
           rewrite (slice_split _ _ (m_pos lx1)) by lia. by apply trivia_app.
        -- right. split_and!; try done; try lia.
           rewrite (slice_split _ _ (m_pos lx1)) by lia. by apply trivia_app.
      * destruct Hflow as (Hsrc & Hstart & Hadv & Hin & Hval & Hty & Hl & Hc).
        exists t, lx1. split; [done|].
        unfold next_post. split_and!; try done; try lia.
        { unfold cursor_ok. rewrite Hsrc, Hstart. lia. }
        right. rewrite Hstart, slice_empty.
        split_and!; try done; try lia; constructor.
    + assert (Hend : m_pos lx = size (m_source lx)) by lia.
      exists end_of_input, lx. split; [done|].
      unfold next_post. split_and!; try done.
      left. rewrite Hend, slice_empty. split_and!; try done. constructor.
Qed.

Lemma next_spec (lx : Lexer) :
  cursor_ok lx → ∃ t lx', next lx = Ok (t, lx') ∧ next_post lx t lx'.
Proof.
  intros Hok. unfold next.
  destruct (Z.eqb_spec (size (m_source lx)) 0) as [Hz|Hnz].
  - pose proof Hok as (Hst & Hsp & Hpl & Hfit).
    assert (Hend : m_pos lx = size (m_source lx)) by lia.
    exists end_of_input, lx. split; [done|].
    unfold next_post. split_and!; try done.
    left. rewrite Hend, slice_empty. split_and!; try done. constructor.
  - apply next_loop_spec; [done|].
    destruct Hok as (Hst & Hsp & Hpl & Hfit). unfold size in *. lia.
Qed.

Lemma next_ok_post (lx : Lexer) (t : Token) (lx' : Lexer) :
  cursor_ok lx → next lx = Ok (t, lx') → next_post lx t lx'.
Proof.
  intros Hok Hnext. destruct (next_spec lx Hok) as (t0 & lx0 & Heq & Hpost).
  rewrite Hnext in Heq. by injection Heq as -> ->.
Qed.

Lemma next_at_end (lx : Lexer) :
  cursor_ok lx → m_pos lx = size (m_source lx) → next lx = Ok (end_of_input, lx).
Proof.
  intros (Hst & Hsp & Hpl & Hfit) Hend. unfold next.
  destruct (size (m_source lx) =? 0); [done|].
  destruct (String.length (m_source lx)); simpl; int_norm;
    by rewrite Hend, Z.ltb_irrefl.
Qed.

Lemma calls_at_end (lx : Lexer) (n : nat) :
  cursor_ok lx → m_pos lx = size (m_source lx) →
  calls n lx = Ok (replicate n end_of_input, lx).
Proof.
  intros Hok Hend. induction n as [|n IH]; [done|].
  simpl. rewrite next_at_end by done. lx_simpl. by rewrite IH.
Qed.


(** ** Position fields *)

Lemma iteration_line_column (lx : Lexer) (t : Token) (lx' : Lexer) :
  iteration lx = Ok (Return_ t lx') → line t = 0 ∧ column t = 0.
Proof.
  unfold iteration, identifier, number, bind. intros H.
  repeat case_match; simplify_eq; done.
Qed.

Lemma next_loop_line_column (fuel : nat) (lx : Lexer) (t : Token) (lx' : Lexer) :
  next_loop fuel lx = Ok (t, lx') → line t = 0 ∧ column t = 0.
Proof.
  revert lx. induction fuel as [|fuel IH]; intros lx; simpl.
  - case_match; [done|]. by intros [= <- _].
  - case_match; [|by intros [= <- _]].
    destruct (iteration lx) as [[lx1|t1 lx1]| |] eqn:Hit; simpl; try done.
    + apply IH.
    + intros [= -> ->]. by apply iteration_line_column in Hit.
Qed.

Lemma next_line_column (lx : Lexer) (t : Token) (lx' : Lexer) :
  next lx = Ok (t, lx') → line t = 0 ∧ column t = 0.
Proof.
  unfold next. case_match; [by intros [= <- _]|]. apply next_loop_line_column.
Qed.

(** C9: in whatever state the scanner is, and however many times [next] is
    called from there, every token returned has [line = 0] and
    [column = 0]. *)
Theorem tokens_carry_no_position (lx : Lexer) (n : nat) (ts : list Token)
    (lx' : Lexer) :
  calls n lx = Ok (ts, lx') → Forall (λ t, line t = 0 ∧ column t = 0) ts.
Proof.
  revert lx ts. induction n as [|n IH]; intros lx ts; simpl.
  - intros [= <- _]. constructor.
  - destruct (next lx) as [[t lx1]| |] eqn:Hnext; simpl; try done.
    destruct (calls n lx1) as [[ts1 lx2]| |] eqn:Hcalls; simpl; try done.
    intros [= <- <-]. constructor.
    + by apply next_line_column in Hnext.
    + by apply (IH lx1).
Qed.

Lemma tokens_carry_no_position_witness :
  Forall (λ t, line t = 0 ∧ column t = 0)
    [ mkToken Identifier "x" 0 0; mkToken GreaterEqual ">=" 0 0;
      mkToken IntegerLiteral "10" 0 0; end_of_input ].
Proof.
  apply (tokens_carry_no_position (Lexer_new "x >= 10") 4 _
           {| m_source := "x >= 10"; m_pos := 7; m_start := 5 |}).
  vm_compute. reflexivity.
Defined.

(** ** The terminal state *)

(** C4: when the cursor is at the end of the source, [next] returns the
    sentinel, whose lexeme is empty, and leaves the scanner as it was; and
    whenever a call returns the sentinel, the cursor has reached the end
    and every further call returns the same sentinel without changing
    [m_pos] or [m_start]. *)
Theorem end_of_input_is_terminal (lx : Lexer) :
  cursor_ok lx →
  (m_pos lx = size (m_source lx) → next lx = Ok (end_of_input, lx)) ∧
  (∀ t lx', next lx = Ok (t, lx') → type t = EndOfInput →
     t = end_of_input ∧ value t = "" ∧ m_pos lx' = size (m_source lx') ∧
     ∀ n, calls n lx' = Ok (replicate n end_of_input, lx')).
Proof.
  intros Hok. split.
  - by apply next_at_end.
  - intros t lx' Hnext Hty.
    destruct (next_ok_post lx t lx' Hok Hnext)
      as (Hsrc & Hok' & _ & _ & _ & [(-> & Hend & _)|(Hne & _)]); [|done].
    rewrite <- Hsrc in Hend. split_and!; try done.
    intros n. by apply calls_at_end.
Qed.

Lemma end_of_input_is_terminal_witness :
  next {| m_source := "a  "; m_pos := 3; m_start := 2 |} =
    Ok (end_of_input, {| m_source := "a  "; m_pos := 3; m_start := 2 |}) ∧
  calls 3 {| m_source := "a  "; m_pos := 3; m_start := 2 |} =
    Ok ([end_of_input; end_of_input; end_of_input],
        {| m_source := "a  "; m_pos := 3; m_start := 2 |}).
Proof.
  split.
  - apply (end_of_input_is_terminal
             {| m_source := "a  "; m_pos := 3; m_start := 2 |});
      [concrete_cursor | reflexivity].
  - apply (proj2 (end_of_input_is_terminal
                    {| m_source := "a  "; m_pos := 1; m_start := 0 |}
                    ltac:(concrete_cursor)) end_of_input);
      vm_compute; reflexivity.
Defined.

(** ** The cursor as an [int], on any source *)

Lemma wrap_int_is_int (z : Z) : is_int (wrap_int z).
Proof.
  unfold is_int, wrap_int, INT_MAX.
  pose proof (Z.mod_pos_bound (z + 2 ^ 31) (2 ^ 32)). lia.
Qed.

Lemma wrap_int_succ (z : Z) :
  0 ≤ z ≤ INT_MAX →
  (z < INT_MAX ∧ wrap_int (z + 1) = z + 1) ∨
  (z = INT_MAX ∧ wrap_int (z + 1) = - 2 ^ 31).
Proof.
  intros Hz. destruct (decide (z = INT_MAX)) as [->|Hne].
  - right. by split.
  - left. split; [lia|]. apply wrap_int_id. unfold INT_MAX in *. lia.
Qed.

Lemma to_size_t_negative (z : Z) : - 2 ^ 31 ≤ z < 0 → to_size_t z = 2 ^ 64 + z.
Proof.
  intros Hz. unfold to_size_t. symmetry.
  apply (Z.mod_unique z (2 ^ 64) (-1)); lia.
Qed.

(** The test [pos < len] of lines 142, 146, 159, 162, 254 and 271, which
    compares an [int] with the [size_t] length of a string: a negative
    [int] converts to a [size_t] that no length reaches. *)
Lemma in_source_spec (src : string) (z : Z) :
  size src ≤ string_max_size → is_int z →
  ((to_size_t z <? size src) = true ∧ 0 ≤ z < size src) ∨
  ((to_size_t z <? size src) = false ∧ (z < 0 ∨ size src ≤ z)).
Proof.
  unfold string_max_size, is_int. intros Hs Hz.
  destruct (decide (z < 0)) as [Hneg|Hpos].
  - right. rewrite to_size_t_negative by lia. split; [|lia].
    apply Z.ltb_ge. lia.
  - rewrite to_size_t_id by lia.
    destruct (Z.ltb_spec z (size src)); [left|right]; lia.
Qed.

Lemma advance_while_total (p : ascii → bool) (src : string) (fuel : nat) (pos : Z) :
  size src ≤ string_max_size → is_int pos →
  (0 ≤ pos → size src - pos ≤ Z.of_nat fuel) →
  ∃ q, advance_while p fuel src pos = Ok q ∧ is_int q ∧
       (q < 0 ∨ (0 ≤ pos ∧ pos ≤ q)).
Proof.
  intros Hs. revert pos. induction fuel as [|fuel IH]; intros pos Hint Hf; simpl;
    destruct (in_source_spec src pos Hs Hint) as [[-> Hin]|[-> Hout]]; simpl;
    try (exists pos; split_and!; [done|done|lia]).
  - lia.
  - destruct (p (char_at src pos)); [|exists pos; split_and!; [done|done|lia]].
    destruct (wrap_int_succ pos) as [[Hlt ->]|[Hmax ->]];
      [unfold is_int in Hint; lia| |].
    + destruct (IH (pos + 1)) as (q & Hq & Hqi & Hqp);
        [unfold is_int in *; lia|lia|].
      exists q. split_and!; [done|done|lia].
    + destruct (IH (- 2 ^ 31)) as (q & Hq & Hqi & Hqp);
        [unfold is_int, INT_MAX; lia|lia|].
      exists q. split_and!; [done|done|lia].
Qed.

Lemma skip_comment_total (src : string) (fuel : nat) (pos : Z) :
  size src ≤ string_max_size → 0 ≤ pos ≤ INT_MAX →
  size src - pos - 1 ≤ Z.of_nat fuel →
  ∃ q, skip_comment fuel src pos = Ok q ∧ is_int q ∧ (q < 0 ∨ pos < q).
Proof.
  intros Hs. revert pos. induction fuel as [|fuel IH]; intros pos Hpos Hf; simpl;
    pose proof (wrap_int_is_int (pos + 1)) as Hint;
    destruct (in_source_spec src (wrap_int (pos + 1)) Hs Hint)
      as [[-> Hin]|[-> Hout]]; simpl;
    destruct (wrap_int_succ pos Hpos) as [[Hlt Hw]|[Hmax Hw]];
    rewrite Hw in *;
    try (eexists; split_and!; [done|done|lia]).
  - lia.
  - lia.
  - destruct (negb _); [|eexists; split_and!; [done|done|lia]].
    destruct (IH (pos + 1)) as (q & Hq & Hqi & Hqp); [lia|lia|].
    exists q. split_and!; [done|done|lia].
  - lia.
Qed.

Lemma string_sub_total (src : string) (a n : Z) :
  0 ≤ a → a ≤ size src → a ≤ INT_MAX → ∃ s, string_sub src a n = Ok s.
Proof.
  intros H0 Hle Hi. unfold string_sub. rewrite to_size_t_id by lia.
  destruct (Z.ltb_spec (size src) a); [lia|]. eauto.
Qed.

Lemma iteration_not_sentinel (lx : Lexer) (t : Token) (lx' : Lexer) :
  iteration lx = Ok (Return_ t lx') → type t ≠ EndOfInput.
Proof.
  unfold iteration, identifier, number, bind. intros H.
  repeat case_match; simplify_eq; simpl; try done.
  all: try match goal with Hk : keywordMap !! _ = Some _ |- _ =>
    apply keywordMap_lookup, keywordTable_kind in Hk; by intros ->
  end.
  all: match goal with Hop : operator ?c ?n = _ |- _ =>
    pose proof (operator_not_EndOfInput c n) as Hne; by rewrite Hop in Hne
  end.
Qed.

(** A pass through the loop body, entered with the cursor inside the
    source, raises no exception and exhausts no budget, however long the
    source is. *)
Lemma iteration_total (lx : Lexer) :
  size (m_source lx) ≤ string_max_size →
  0 ≤ m_pos lx < size (m_source lx) → m_pos lx ≤ INT_MAX →
  ∃ f, iteration lx = Ok f ∧ moved_on lx (flow_state f).
Proof.
  destruct lx as [src pos st]. simpl. intros Hs Hpos Hmax.
  pose proof (wrap_int_is_int (pos + 1)) as Hint.
  assert (Hsucc : wrap_int (pos + 1) = - 2 ^ 31 ∨
                  (pos < wrap_int (pos + 1) ∧ wrap_int (pos + 1) ≤ INT_MAX)).
  { destruct (wrap_int_succ pos) as [[? ->]|[? ->]]; lia. }
  assert (Hword : ∀ p, ∃ q,
            advance_while p (budget src) src (wrap_int (pos + 1)) = Ok q ∧
            is_int q ∧ (q < 0 ∨ pos < q)).
  { intros p.
    destruct (advance_while_total p src (budget src) (wrap_int (pos + 1)))
      as (q & Hq & Hqi & Hqp); [done|done|apply budget_enough|].
    exists q. split_and!; [done|done|lia]. }
  assert (Hsub : ∀ n, ∃ s, string_sub src pos n = Ok s).
  { intros n. apply string_sub_total; lia. }
  assert (Hrest : ∀ nx, ∃ f,
    (if isalpha (char_at src pos) then
       let* (t, lx) := identifier
         {| m_source := src; m_pos := wrap_int (pos + 1); m_start := pos |} in
       Ok (Return_ t lx)
     else if isnumber (char_at src pos) then
       let* (t, lx) := number
         {| m_source := src; m_pos := wrap_int (pos + 1); m_start := pos |} in
       Ok (Return_ t lx)
     else
       let '(ty, extra) := operator (char_at src pos) nx in
       let lx :=
         if extra
         then set_pos
                {| m_source := src; m_pos := wrap_int (pos + 1); m_start := pos |}
                (wrap_int (wrap_int (pos + 1) + 1))
         else {| m_source := src; m_pos := wrap_int (pos + 1); m_start := pos |} in
       let* lexeme :=
         string_sub (m_source lx) (m_start lx) (wrap_int (m_pos lx - m_start lx)) in
       Ok (Return_ {| type := ty; value := lexeme; line := 0; column := 0 |} lx))
    = Ok f ∧
    moved_on {| m_source := src; m_pos := pos; m_start := st |} (flow_state f)).
  { intros nx. unfold moved_on.
    destruct (isalpha (char_at src pos)); [|destruct (isnumber (char_at src pos))].
    - unfold identifier. lx_simpl.
      destruct (Hword isalnum) as (q & -> & Hqi & Hq). lx_simpl.
      destruct (Hsub (wrap_int (q - pos))) as (s & ->). lx_simpl.
      destruct (keywordMap !! s); lx_simpl;
        (eexists; split; [reflexivity|]); simpl; by split_and!.
    - unfold number. lx_simpl.
      destruct (Hword isnumber) as (q & -> & Hqi & Hq). lx_simpl.
      destruct (Hsub (wrap_int (q - pos))) as (s & ->). lx_simpl.
      (eexists; split; [reflexivity|]); simpl; by split_and!.
    - destruct (operator (char_at src pos) nx) as [ty [|]]; lx_simpl.
      + destruct (Hsub (wrap_int (wrap_int (wrap_int (pos + 1) + 1) - pos)))
          as (s & ->). lx_simpl.
        (eexists; split; [reflexivity|]); simpl.
        split_and!; [done|apply wrap_int_is_int|].
        destruct Hsucc as [Hneg|[Hlt Hle]].
        * left. rewrite Hneg. by vm_compute.
        * destruct (wrap_int_succ (wrap_int (pos + 1))) as [[? ->]|[? ->]]; lia.
      + destruct (Hsub (wrap_int (wrap_int (pos + 1) - pos))) as (s & ->). lx_simpl.
        (eexists; split; [reflexivity|]); simpl. split_and!; [done|done|lia]. }
  unfold iteration. lx_simpl.
  destruct (is_blank (char_at src pos)).
  { eexists. split; [reflexivity|]. unfold moved_on. simpl.
    split_and!; [done|done|lia]. }
  destruct (in_source_spec src (wrap_int (pos + 1)) Hs Hint) as [[-> Hin]|[-> Hout]].
  - destruct (Ascii.eqb (char_at src pos) "/" && true
              && Ascii.eqb (char_at src (wrap_int (pos + 1))) "/");
      [|apply Hrest].
    destruct (skip_comment_total src (budget src) (wrap_int (pos + 1)))
      as (q & -> & Hqi & Hq); [done|lia| |].
    { pose proof (budget_enough src (wrap_int (pos + 1))). lia. }
    lx_simpl. eexists. split; [reflexivity|].
    unfold moved_on. simpl. split_and!; [done..|lia].
  - rewrite andb_false_r. simpl. apply Hrest.
Qed.

Lemma next_loop_total (fuel : nat) (lx : Lexer) :
  size (m_source lx) ≤ string_max_size → is_int (m_pos lx) →
  (0 ≤ m_pos lx → size (m_source lx) - m_pos lx ≤ Z.of_nat fuel) →
  ∃ t lx', next_loop fuel lx = Ok (t, lx') ∧
    m_source lx' = m_source lx ∧ is_int (m_pos lx') ∧
    ((t = end_of_input ∧ (m_pos lx' < 0 ∨ size (m_source lx) ≤ m_pos lx')) ∨
     (type t ≠ EndOfInput ∧ 0 ≤ m_pos lx < size (m_source lx) ∧
      (m_pos lx' < 0 ∨ m_pos lx < m_pos lx'))).
Proof.
  revert lx. induction fuel as [|fuel IH]; intros lx Hs Hint Hfuel; simpl;
    destruct (in_source_spec (m_source lx) (m_pos lx) Hs Hint)
      as [[-> Hin]|[-> Hout]];
    try (exists end_of_input, lx; split_and!; [done..|by left]).
  { lia. }
  destruct (iteration_total lx) as (f & Hit & Hsrc & Hint1 & Hmove);
    [done|done|unfold is_int in Hint; lia|].
  rewrite Hit. lx_simpl. destruct f as [lx1|t lx1]; simpl in Hsrc, Hint1, Hmove.
  - destruct (IH lx1) as (t & lx' & Hloop & Hsrc' & Hint' & Hcases);
      [by rewrite Hsrc|done|rewrite Hsrc; lia|].
    exists t, lx'. rewrite Hsrc in *. split_and!; try done.
    destruct Hcases as [(-> & Hrest)|(Hty & Hin1 & Hmove')]; [by left|].
    right. split_and!; try done; lia.
  - exists t, lx1. apply iteration_not_sentinel in Hit.
    split_and!; try done. by right.
Qed.

(** A call of [next] returns on any source, whatever [int] the cursor
    holds: the sentinel, with the cursor outside the source, or another
    token, read with the cursor inside the source and leaving it further
    on or negative. *)
Lemma next_total (lx : Lexer) :
  size (m_source lx) ≤ string_max_size → is_int (m_pos lx) →
  ∃ t lx', next lx = Ok (t, lx') ∧
    m_source lx' = m_source lx ∧ is_int (m_pos lx') ∧
    ((t = end_of_input ∧ (m_pos lx' < 0 ∨ size (m_source lx) ≤ m_pos lx')) ∨
     (type t ≠ EndOfInput ∧ 0 ≤ m_pos lx < size (m_source lx) ∧
      (m_pos lx' < 0 ∨ m_pos lx < m_pos lx'))).
Proof.
  intros Hs Hint. unfold next.
  destruct (Z.eqb_spec (size (m_source lx)) 0) as [Hz|Hnz].
  - exists end_of_input, lx. split_and!; try done. left. split; [done|lia].
  - apply next_loop_total; try done. unfold size. lia.
Qed.

(** With the cursor outside the source the scanner is at rest. *)
Lemma next_at_rest (lx : Lexer) :
  size (m_source lx) ≤ string_max_size → is_int (m_pos lx) →
  m_pos lx < 0 ∨ size (m_source lx) ≤ m_pos lx →
  next lx = Ok (end_of_input, lx).
Proof.
  intros Hs Hint Hrest. unfold next.
  destruct (size (m_source lx) =? 0); [done|].
  destruct (String.length (m_source lx)); simpl;
    by destruct (in_source_spec (m_source lx) (m_pos lx) Hs Hint)
      as [[-> Hin]|[-> Hout]]; [lia|].
Qed.

Lemma calls_at_rest (lx : Lexer) (n : nat) :
  size (m_source lx) ≤ string_max_size → is_int (m_pos lx) →
  m_pos lx < 0 ∨ size (m_source lx) ≤ m_pos lx →
  calls n lx = Ok (replicate n end_of_input, lx).
Proof.
  intros Hs Hint Hrest. induction n as [|n IH]; [done|].
  simpl. rewrite next_at_rest by done. lx_simpl. by rewrite IH.
Qed.

Lemma reachable_is_int (src : string) (lx : Lexer) :
  size src ≤ string_max_size → reachable src lx →
  m_source lx = src ∧ is_int (m_pos lx).
Proof.
  intros Hs Hr. induction Hr as [|lx t lx' _ [Hsrc Hint] Hnext].
  - split; [done|]. by vm_compute.
  - destruct (next_total lx) as (t0 & lx0 & Heq & Hsrc' & Hint' & _);
      [by rewrite Hsrc|done|].
    rewrite Hnext in Heq. injection Heq as -> ->. split; [congruence|done].
Qed.

(** ** A source longer than the cursor can count *)

Lemma length_blanks (n : nat) (t : string) :
  String.length (blanks n +:+ t) = (n + String.length t)%nat.
Proof.
  induction n as [|n IH]; [reflexivity|].
  cbn [blanks]. rewrite append_cons. cbn [String.length]. by rewrite IH.
Qed.

Lemma get_blanks (n : nat) (t : string) (i : nat) :
  (i < n)%nat → String.get i (blanks n +:+ t) = Some " "%char.
Proof.
  revert i. induction n as [|n IH]; intros i Hi; [lia|].
  cbn [blanks]. rewrite append_cons. destruct i as [|i]; [reflexivity|].
  cbn [String.get]. apply IH. lia.
Qed.

Lemma char_at_blanks (n : nat) (t : string) (i : Z) :
  0 ≤ i < Z.of_nat n → i ≤ INT_MAX → char_at (blanks n +:+ t) i = " "%char.
Proof.
  intros Hi Hmax. unfold char_at. rewrite to_size_t_id by lia.
  by rewrite get_blanks by lia.
Qed.

Lemma not_trivia_blanks_x (n : nat) : ¬ trivia (blanks n +:+ "x").
Proof.
  induction n as [|n IH]; cbn [blanks]; intros Ht.
  - rewrite append_empty_l in Ht.
    apply trivia_cons_inv in Ht as [[Hb _]|[Hc _]]; discriminate.
  - rewrite append_cons in Ht.
    apply trivia_cons_inv in Ht as [[_ Ht]|[Hc _]]; [done|discriminate].
Qed.

Lemma blank_pass (src : string) (pos st : Z) :
  char_at src pos = " "%char →
  iteration {| m_source := src; m_pos := pos; m_start := st |} =
  Ok (Continue_ {| m_source := src; m_pos := wrap_int (pos + 1); m_start := pos |}).
Proof. intros Hc. unfold iteration. lx_simpl. by rewrite Hc. Qed.

(** Over blanks that fill a source up to index [INT_MAX] and beyond, the
    loop of [next] goes on until the increment of line 150 is applied to
    [INT_MAX]; the comparison of line 142 converts the negative cursor
    to a [size_t] beyond the length, and the loop ends. *)
Lemma blank_run (src : string) (k fuel : nat) (pos st : Z) :
  INT_MAX < size src → size src ≤ string_max_size →
  (∀ i, 0 ≤ i ≤ INT_MAX → char_at src i = " "%char) →
  0 ≤ pos → pos = INT_MAX - Z.of_nat k → (k < fuel)%nat →
  next_loop fuel {| m_source := src; m_pos := pos; m_start := st |} =
  Ok (end_of_input, overflowed src).
Proof.
  intros Hlong Hs Hblank. revert fuel pos st.
  induction k as [|k IH]; intros fuel pos st H0 Hk Hfuel;
    (destruct fuel as [|fuel]; [lia|]); cbn [next_loop]; lx_simpl;
    rewrite to_size_t_id by lia;
    rewrite (proj2 (Z.ltb_lt _ _)) by lia;
    rewrite blank_pass by (apply Hblank; lia); lx_simpl.
  - replace pos with INT_MAX by lia. rewrite increment_wraps.
    destruct (in_source_spec src (- 2 ^ 31) Hs) as [[_ Hin]|[Hout _]];
      [by vm_compute|lia|].
    by destruct fuel; cbn [next_loop]; lx_simpl; rewrite Hout.
  - rewrite wrap_int_id by (unfold INT_MAX in *; lia).
    apply IH; lia.
Qed.

Lemma tokens_sentinel (fuel : nat) (lx lx' : Lexer) :
  next lx = Ok (end_of_input, lx') → tokens (S fuel) lx = Ok ([], lx').
Proof. intros Hnext. cbn [tokens]. by rewrite Hnext. Qed.

Lemma spans_sentinel (fuel : nat) (lx lx' : Lexer) :
  next lx = Ok (end_of_input, lx') →
  spans (S fuel) lx = Ok [(slice (m_source lx) (m_pos lx) (m_pos lx'), "")].
Proof. intros Hnext. cbn [spans]. by rewrite Hnext. Qed.

Section beyond.

(** [n] is the number [2^31], kept as a variable: the blanks are never
    written out. *)
Variable n : nat.
Hypothesis n_is : Z.of_nat n = 2 ^ 31.

Lemma size_beyond : size (blanks n +:+ "x") = INT_MAX + 2.
Proof.
  unfold size, INT_MAX. rewrite length_blanks.
  change (String.length "x") with 1%nat. lia.
Qed.

Lemma next_beyond :
  next (Lexer_new (blanks n +:+ "x")) =
  Ok (end_of_input, overflowed (blanks n +:+ "x")).
Proof.
  pose proof size_beyond as Hsize. unfold INT_MAX in Hsize.
  unfold next, Lexer_new. lx_simpl.
  destruct (Z.eqb_spec (size (blanks n +:+ "x")) 0) as [Hz|_]; [lia|].
  apply (blank_run _ (Z.to_nat INT_MAX)).
  - unfold INT_MAX. lia.
  - unfold string_max_size. lia.
  - intros i Hi. apply char_at_blanks; unfold INT_MAX in *; lia.
  - lia.
  - unfold INT_MAX. lia.
  - unfold size in Hsize. unfold INT_MAX. lia.
Qed.

Lemma cursor_beyond :
  let lx' := overflowed (blanks n +:+ "x") in
  size (blanks n +:+ "x") = INT_MAX + 2 ∧
  next (Lexer_new (blanks n +:+ "x")) = Ok (end_of_input, lx') ∧
  reachable (blanks n +:+ "x") lx' ∧
  m_start lx' = 2 ^ 31 - 1 ∧
  m_pos lx' = - 2 ^ 31 ∧
  ¬ (0 ≤ m_start lx' ∧ m_start lx' ≤ m_pos lx' ∧
     m_pos lx' ≤ size (blanks n +:+ "x")) ∧
  ¬ (m_pos (Lexer_new (blanks n +:+ "x")) ≤ m_pos lx') ∧
  ¬ (∀ lx, reachable (blanks n +:+ "x") lx →
       0 ≤ m_start lx ∧ m_start lx ≤ m_pos lx ∧
       m_pos lx ≤ size (blanks n +:+ "x")).
Proof.
  intros lx'.
  assert (Hr : reachable (blanks n +:+ "x") lx').
  { apply (reachable_next _ (Lexer_new (blanks n +:+ "x")) end_of_input).
    - constructor.
    - apply next_beyond. }
  assert (Hbad : ¬ (0 ≤ m_start lx' ∧ m_start lx' ≤ m_pos lx' ∧
                    m_pos lx' ≤ size (blanks n +:+ "x"))).
  { unfold lx'. cbn [overflowed m_pos m_start]. unfold INT_MAX. lia. }
  split_and!.
  - apply size_beyond.
  - apply next_beyond.
  - exact Hr.
  - reflexivity.
  - reflexivity.
  - exact Hbad.
  - unfold lx'. cbn [overflowed Lexer_new m_pos]. lia.
  - intros Hall. exact (Hbad (Hall lx' Hr)).
Qed.

Lemma coverage_beyond :
  tokens (budget (blanks n +:+ "x")) (Lexer_new (blanks n +:+ "x")) =
    Ok ([], overflowed (blanks n +:+ "x")) ∧
  spans (budget (blanks n +:+ "x")) (Lexer_new (blanks n +:+ "x")) =
    Ok [("", "")] ∧
  join [("", "")] ≠ blanks n +:+ "x" ∧
  ¬ trivia (blanks n +:+ "x") ∧
  ¬ (∃ ps, spans (budget (blanks n +:+ "x")) (Lexer_new (blanks n +:+ "x")) =
             Ok ps ∧ join ps = blanks n +:+ "x").
Proof.
  assert (Hspans : spans (budget (blanks n +:+ "x"))
                     (Lexer_new (blanks n +:+ "x")) = Ok [("", "")]).
  { unfold budget. rewrite (spans_sentinel _ _ _ next_beyond).
    cbn [Lexer_new overflowed m_source m_pos]. unfold slice.
    replace (Z.to_nat (- 2 ^ 31 - 0)) with 0%nat by lia.
    by rewrite substring_zero_length. }
  assert (Hjoin : join [("", "")] ≠ blanks n +:+ "x").
  { change (join [("", "")]) with "". intros Heq.
    apply (f_equal String.length) in Heq.
    pose proof size_beyond as Hsize. unfold size, INT_MAX in Hsize.
    rewrite <- Heq in Hsize. cbn [String.length] in Hsize. lia. }
  split_and!.
  - apply tokens_sentinel, next_beyond.
  - exact Hspans.
  - exact Hjoin.
  - apply not_trivia_blanks_x.
  - intros (ps & Hps & Heq). rewrite Hspans in Hps.
    injection Hps as <-. by apply Hjoin.
Qed.

(** After that call the scanner is at rest: every call returns the
    sentinel. *)
Lemma calls_beyond (k : nat) :
  calls (S k) (Lexer_new (blanks n +:+ "x")) =
  Ok (replicate (S k) end_of_input, overflowed (blanks n +:+ "x")).
Proof.
  pose proof size_beyond as Hsize. unfold INT_MAX in Hsize.
  cbn [calls]. rewrite next_beyond. lx_simpl.
  rewrite calls_at_rest; [reflexivity| | |];
    cbn [overflowed m_source m_pos].
  - unfold string_max_size. lia.
  - unfold is_int, INT_MAX. lia.
  - left. lia.
Qed.

End beyond.

Lemma beyond_int_blanks : Z.of_nat (Z.to_nat (2 ^ 31)) = 2 ^ 31.
Proof. apply Z2Nat.id. lia. Qed.

(** ** The cursor invariant *)

Lemma Lexer_new_ok (src : string) : size src ≤ INT_MAX → cursor_ok (Lexer_new src).
Proof. intros Hs. unfold cursor_ok, size in *. simpl. lia. Qed.

Lemma reachable_ok (src : string) (lx : Lexer) :
  size src ≤ INT_MAX → reachable src lx → m_source lx = src ∧ cursor_ok lx.
Proof.
  intros Hs Hr. induction Hr as [|lx t lx' _ [Hsrc Hok] Hnext].
  - split; [done|]. by apply Lexer_new_ok.
  - destruct (next_ok_post lx t lx' Hok Hnext) as (Hsrc' & Hok' & _).
    split; [congruence|done].
Qed.

(** C10, for the sources an [int] can index: in every state the scanner
    goes through on a source of length [L <= INT_MAX],
    [0 <= m_start <= m_pos <= L]; the next call returns, and it leaves
    [m_pos] where it was or further on, never beyond [L]. *)
Theorem cursor_invariant (src : string) (lx : Lexer) :
  size src ≤ INT_MAX → reachable src lx →
  m_source lx = src ∧
  0 ≤ m_start lx ∧ m_start lx ≤ m_pos lx ∧ m_pos lx ≤ size src ∧
  ∃ t lx', next lx = Ok (t, lx') ∧ m_pos lx ≤ m_pos lx' ∧ m_pos lx' ≤ size src.
Proof.
  intros Hs Hr. destruct (reachable_ok src lx Hs Hr) as [Hsrc Hok].
  pose proof Hok as (Hst & Hsp & Hpl & _). rewrite Hsrc in Hpl.
  split_and!; try done.
  destruct (next_spec lx Hok) as (t & lx' & Hnext & Hsrc' & Hok' & Hmono & _).
  exists t, lx'. split_and!; try done.
  destruct Hok' as (_ & _ & Hpl' & _). by rewrite Hsrc', Hsrc in Hpl'.
Qed.

Lemma cursor_invariant_witness :
  let lx := {| m_source := "a // b"; m_pos := 1; m_start := 0 |} in
  0 ≤ m_start lx ∧ m_start lx ≤ m_pos lx ∧ m_pos lx ≤ 6 ∧
  ∃ t lx', next lx = Ok (t, lx') ∧ m_pos lx ≤ m_pos lx' ∧ m_pos lx' ≤ 6.
Proof.
  apply (cursor_invariant "a // b").
  - unfold INT_MAX, size. simpl. lia.
  - apply (reachable_next _ (Lexer_new "a // b") (mkToken Identifier "a" 0 0)).
    + constructor.
    + vm_compute. reflexivity.
Defined.

(** Without the bound on the length the invariant of C10 fails.  On
    [beyond_int], whose length is [INT_MAX + 2], the first call of [next]
    passes over the blanks up to index [INT_MAX]; the increment of line
    150 then leaves [INT_MIN] in [m_pos], which line 142 converts to a
    [size_t] beyond the length, so the call returns the sentinel.  The
    state it leaves has [m_start = INT_MAX] and [m_pos = INT_MIN]: the
    cursor is negative, before the start marker and before the cursor the
    call started with. *)
Lemma cursor_invariant_fails_beyond_int :
  let lx' := overflowed beyond_int in
  size beyond_int = INT_MAX + 2 ∧
  next (Lexer_new beyond_int) = Ok (end_of_input, lx') ∧
  reachable beyond_int lx' ∧
  m_start lx' = 2 ^ 31 - 1 ∧
  m_pos lx' = - 2 ^ 31 ∧
  ¬ (0 ≤ m_start lx' ∧ m_start lx' ≤ m_pos lx' ∧ m_pos lx' ≤ size beyond_int) ∧
  ¬ (m_pos (Lexer_new beyond_int) ≤ m_pos lx') ∧
  ¬ (∀ lx, reachable beyond_int lx →
       0 ≤ m_start lx ∧ m_start lx ≤ m_pos lx ∧ m_pos lx ≤ size beyond_int).
Proof. exact (cursor_beyond (Z.to_nat (2 ^ 31)) beyond_int_blanks). Qed.

(** ** Scanning a whole source *)

Lemma tokens_total (fuel : nat) (lx : Lexer) :
  size (m_source lx) ≤ string_max_size → is_int (m_pos lx) →
  (0 < fuel)%nat →
  (0 ≤ m_pos lx → size (m_source lx) - m_pos lx < Z.of_nat fuel) →
  ∃ ts lx_end,
    tokens fuel lx = Ok (ts, lx_end) ∧
    Z.of_nat (length ts) ≤ Z.max 0 (size (m_source lx) - m_pos lx) ∧
    (m_pos lx < 0 → ts = []) ∧
    Forall (λ t, type t ≠ EndOfInput) ts ∧
    ∀ n, calls (length ts + S n) lx =
         Ok ((ts ++ replicate (S n) end_of_input)%list, lx_end).
Proof.
  revert lx. induction fuel as [|fuel IH]; intros lx Hs Hint Hpos Hfuel; [lia|].
  destruct (next_total lx Hs Hint) as (t & lx1 & Hnext & Hsrc & Hint1 & Hcases).
  simpl. rewrite Hnext. lx_simpl.
  destruct Hcases as [(-> & Hrest)|(Hty & Hin & Hmove)].
  - exists [], lx1. rewrite decide_True by done.
    split_and!; [done|simpl; lia|done|constructor|].
    intros n. simpl. rewrite Hnext. lx_simpl.
    rewrite <- Hsrc in Hrest, Hs. by rewrite calls_at_rest.
  - rewrite decide_False by done.
    destruct (IH lx1) as (ts & lx_end & Htok & Hlen & Hneg & Hall & Hcalls);
      [by rewrite Hsrc|done|lia|rewrite Hsrc; lia|].
    rewrite Htok. lx_simpl. exists (t :: ts), lx_end.
    rewrite Hsrc in Hlen.
    split_and!; [done| |lia|by constructor|].
    + destruct Hmove as [Hwrap|Hfwd].
      * rewrite (Hneg Hwrap). simpl. lia.
      * simpl length. lia.
    + intros n. simpl. rewrite Hnext. lx_simpl. by rewrite Hcalls.
Qed.

(** C6: on every source, of whatever length a [std::string] can have and
    so also where the [int] cursor cannot count to the end, every call of
    [next] returns; the loop of [main] ends after at most as many tokens
    as the source has characters, none of them the sentinel; and the
    calls after these tokens all return the sentinel and leave the
    scanner in one and the same state. *)
Theorem scanning_terminates (src : string) :
  size src ≤ string_max_size →
  (∀ lx, reachable src lx → ∃ t lx', next lx = Ok (t, lx')) ∧
  ∃ ts lx_end,
    tokens (budget src) (Lexer_new src) = Ok (ts, lx_end) ∧
    (length ts ≤ String.length src)%nat ∧
    Forall (λ t, type t ≠ EndOfInput) ts ∧
    ∀ n, calls (length ts + S n) (Lexer_new src) =
         Ok ((ts ++ replicate (S n) end_of_input)%list, lx_end).
Proof.
  intros Hs. split.
  - intros lx Hr. destruct (reachable_is_int src lx Hs Hr) as [Hsrc Hint].
    destruct (next_total lx) as (t & lx' & Hnext & _); [by rewrite Hsrc|done|].
    eauto.
  - destruct (tokens_total (budget src) (Lexer_new src))
      as (ts & lx_end & Htok & Hlen & _ & Hall & Hcalls);
      [done|by vm_compute|unfold budget; lia|unfold budget, size; simpl; lia|].
    exists ts, lx_end. split_and!; try done.
    unfold size in Hlen. simpl in Hlen. lia.
Qed.

Lemma scanning_terminates_witness :
  ∃ ts lx_end,
    tokens (budget "x = 1;") (Lexer_new "x = 1;") = Ok (ts, lx_end) ∧
    (length ts ≤ 6)%nat ∧
    Forall (λ t, type t ≠ EndOfInput) ts ∧
    ∀ n, calls (length ts + S n) (Lexer_new "x = 1;") =
         Ok ((ts ++ replicate (S n) end_of_input)%list, lx_end).
Proof.
  apply (scanning_terminates "x = 1;"). unfold string_max_size, size. simpl. lia.
Defined.

(** On [beyond_int] the scan is over with the first call, which leaves
    the cursor negative: that call and every call after it return the
    sentinel, and the letter behind the blanks is never reached. *)
Example scanning_beyond_int_is_over (k : nat) :
  calls (S k) (Lexer_new beyond_int) =
  Ok (replicate (S k) end_of_input, overflowed beyond_int).
Proof. exact (calls_beyond (Z.to_nat (2 ^ 31)) beyond_int_blanks k). Qed.

(** ** Coverage of the source *)

Lemma spans_spec (fuel : nat) (lx : Lexer) :
  cursor_ok lx → size (m_source lx) - m_pos lx < Z.of_nat fuel →
  ∃ ps ts lx_end,
    spans fuel lx = Ok ps ∧ tokens fuel lx = Ok (ts, lx_end) ∧
    ps.*2 = ((value <$> ts) ++ [""])%list ∧
    Forall (λ p, trivia p.1) ps ∧
    join ps = slice (m_source lx) (m_pos lx) (size (m_source lx)).
Proof.
  revert lx. induction fuel as [|fuel IH]; intros lx Hok Hfuel.
  { destruct Hok as (_ & _ & ? & _). lia. }
  destruct (next_spec lx Hok)
    as (t & lx1 & Hnext & Hsrc & Hok1 & Hmono & _ & _ & Hcases).
  simpl. rewrite Hnext. lx_simpl.
  destruct Hcases as [(-> & Hend & Htriv)|(Hty & Hps & Hsp & Htriv & Hval & _)].
  - rewrite decide_True by done. rewrite Hend.
    eexists _, [], lx1. split_and!; try done.
    + by repeat constructor.
    + unfold join. simpl. by rewrite !append_empty_r.
  - rewrite !decide_False by done.
    destruct (IH lx1) as (ps & ts & lx_end & Hspans & Htok & Hlex & Hall & Hjoin);
      [done| |].
    { rewrite Hsrc. lia. }
    rewrite Hspans, Htok. lx_simpl.
    eexists _, (t :: ts), lx_end. split_and!; try done.
    + by rewrite !fmap_cons, Hlex.
    + by constructor.
    + unfold join in *. simpl. rewrite Hjoin, Hval, Hsrc.
      pose proof Hok1 as (_ & _ & Hpl1 & _). rewrite Hsrc in Hpl1.
      pose proof Hok as (Hst0 & Hsp0 & _).
      rewrite <- (slice_split _ (m_start lx1) (m_pos lx1)) by lia.
      by rewrite <- (slice_split _ (m_pos lx) (m_start lx1)) by lia.
Qed.

(** C2, for the sources an [int] can index: on a source of at most
    [INT_MAX] characters, the texts passed over and the lexemes returned
    by the successive calls of [next], up to the call that returns the
    sentinel, concatenate in order to the source; every text passed over
    consists of blanks and comments only; and the lexemes are those of
    the tokens [main] sees, followed by the empty lexeme of the
    sentinel. *)
Theorem lexemes_and_trivia_cover_source (src : string) :
  size src ≤ INT_MAX →
  ∃ ps ts lx_end,
    spans (budget src) (Lexer_new src) = Ok ps ∧
    tokens (budget src) (Lexer_new src) = Ok (ts, lx_end) ∧
    ps.*2 = ((value <$> ts) ++ [""])%list ∧
    Forall (λ p, trivia p.1) ps ∧
    join ps = src.
Proof.
  intros Hs.
  destruct (spans_spec (budget src) (Lexer_new src))
    as (ps & ts & lx_end & Hspans & Htok & Hlex & Hall & Hjoin).
  { by apply Lexer_new_ok. }
  { unfold budget, size. simpl. lia. }
  exists ps, ts, lx_end. split_and!; try done.
  simpl in Hjoin. by rewrite slice_all in Hjoin.
Qed.

Lemma lexemes_and_trivia_cover_source_witness :
  ∃ ps ts lx_end,
    spans (budget "a = b // c") (Lexer_new "a = b // c") = Ok ps ∧
    tokens (budget "a = b // c") (Lexer_new "a = b // c") = Ok (ts, lx_end) ∧
    ps.*2 = ((value <$> ts) ++ [""])%list ∧
    Forall (λ p, trivia p.1) ps ∧
    join ps = "a = b // c".
Proof.
  apply (lexemes_and_trivia_cover_source "a = b // c").
  unfold INT_MAX, size. simpl. lia.
Defined.

(** Without the bound on the length the coverage of C2 fails.  On
    [beyond_int] the first call of [next] returns the sentinel once the
    cursor has passed index [INT_MAX], so the loop of [main] sees no token
    and the letter [x] behind the blanks is neither returned nor passed
    over: the one pair on record is empty and does not join to the
    source, and the source is not blanks and comments alone. *)
Lemma coverage_fails_beyond_int :
  tokens (budget beyond_int) (Lexer_new beyond_int) =
    Ok ([], overflowed beyond_int) ∧
  spans (budget beyond_int) (Lexer_new beyond_int) = Ok [("", "")] ∧
  join [("", "")] ≠ beyond_int ∧
  ¬ trivia beyond_int ∧
  ¬ (∃ ps, spans (budget beyond_int) (Lexer_new beyond_int) = Ok ps ∧
           join ps = beyond_int).
Proof. exact (coverage_beyond (Z.to_nat (2 ^ 31)) beyond_int_blanks). Qed.

Example spans_of_scenario_1 :
  spans 7 (Lexer_new ("rad = // calc" +:+ String "010" "pi / 180")) =
  Ok [ ("", "rad"); (" ", "="); (" // calc" +:+ String "010" "", "pi");
       (" ", "/"); (" ", "180"); ("", "") ].
Proof. vm_compute. reflexivity. Qed.

(** ** The token at the start marker *)

(** A token other than the sentinel is the one a pass of the loop body
    reads at the start marker the call leaves, inside the source. *)
Lemma next_token_pass (lx : Lexer) (t : Token) (lx' : Lexer) :
  cursor_ok lx → next lx = Ok (t, lx') → type t ≠ EndOfInput →
  pass (m_source lx) (m_start lx') (Return_ t lx') ∧
  0 ≤ m_start lx' ∧ m_start lx' < size (m_source lx) ∧
  size (m_source lx) ≤ INT_MAX.
Proof.
  intros Hok Hnext Hty.
  destruct (next_ok_post lx t lx' Hok Hnext)
    as (Hsrc & Hok' & _ & _ & _ & [(-> & _)|(_ & Hps & Hsp & _ & _ & Hpass)]);
    [done|].
  destruct Hok as (_ & _ & _ & Hfit). destruct Hok' as (Hst & _ & Hpl & _).
  rewrite Hsrc in Hpl. split_and!; try done. lia.
Qed.

(** The three ways in which a pass returns a token. *)
Lemma pass_return_inv (src : string) (p : Z) (t : Token) (lx' : Lexer) :
  pass src p (Return_ t lx') →
  let ch := char_at src p in
  (isalpha ch = true ∧ maximal_run isalnum src p (m_pos lx') ∧
   t = mkToken (word_kind (slice src p (m_pos lx'))) (slice src p (m_pos lx')) 0 0)
  ∨ (isalpha ch = false ∧ isnumber ch = true ∧
     maximal_run isnumber src p (m_pos lx') ∧
     t = mkToken IntegerLiteral (slice src p (m_pos lx')) 0 0)
  ∨ (is_blank ch = false ∧ isalpha ch = false ∧ isnumber ch = false ∧
     m_pos lx' = p + operator_width ch (peek src p) ∧ m_pos lx' ≤ size src ∧
     t = mkToken (operator ch (peek src p)).1 (slice src p (m_pos lx')) 0 0).
Proof.
  intros Hpass.
  inversion Hpass as [ | | q Ha Hrun | q Ha Hn Hrun | w Hb _ Ha Hn Hw Hin ];
    subst; simpl.
  - by left.
  - right. by left.
  - right. right. by split_and!.
Qed.

Lemma slice_two (s : string) (a : Z) :
  0 ≤ a → a + 1 < size s → size s ≤ INT_MAX →
  slice s a (a + 2) = String (char_at s a) (String (char_at s (a + 1)) "").
Proof.
  intros Ha Hlt Hs. rewrite (slice_split s a (a + 1)) by lia.
  replace (a + 2) with (a + 1 + 1) by lia. by rewrite !slice_one by lia.
Qed.

Lemma peek_in_range (src : string) (pos : Z) (c : ascii) :
  peek src pos = c → c ≠ "000"%char →
  pos + 1 < size src ∧ char_at src (pos + 1) = c.
Proof.
  unfold peek. destruct (Z.ltb_spec (pos + 1) (size src)); [done|].
  by intros <-.
Qed.




(** ** Identifiers and keywords *)



Example keywords_are_case_sensitive :
  calls 4 (Lexer_new "if If iffy") =
  Ok ([ mkToken If "if" 0 0; mkToken Identifier "If" 0 0;
        mkToken Identifier "iffy" 0 0; end_of_input ],
      {| m_source := "if If iffy"; m_pos := 10; m_start := 6 |}).
Proof. vm_compute. reflexivity. Qed.

(** ** Invalid characters *)





Example scenario_invalid :
  calls 2 (Lexer_new "#") =
  Ok ([mkToken Invalid "#" 0 0; end_of_input],
      {| m_source := "#"; m_pos := 1; m_start := 0 |}).
Proof. vm_compute. reflexivity. Qed.

(** ** Integer literals *)








Example minus_is_not_fused :
  calls 5 (Lexer_new "-12.5") =
  Ok ([ mkToken Minus "-" 0 0; mkToken IntegerLiteral "12" 0 0;
        mkToken Invalid "." 0 0; mkToken IntegerLiteral "5" 0 0;
        end_of_input ],
      {| m_source := "-12.5"; m_pos := 5; m_start := 4 |}).
Proof. vm_compute. reflexivity. Qed.

Example exponent_is_not_fused :
  calls 3 (Lexer_new "1e5") =
  Ok ([ mkToken IntegerLiteral "1" 0 0; mkToken Identifier "e5" 0 0;
        end_of_input ],
      {| m_source := "1e5"; m_pos := 3; m_start := 1 |}).
Proof. vm_compute. reflexivity. Qed.

(** ** The end-to-end scenarios *)

(** C7: the fourteen calls of [next] on the source of scenario 5 return
    the thirteen tokens of the declaration, in order and with the lexemes
    of the source, and then the sentinel. *)
Theorem scenario_function_fib :
  calls 14 (Lexer_new "function fib(int n) : int { return 1; }") =
  Ok ([ mkToken Function "function" 0 0;
        mkToken Identifier "fib" 0 0;
        mkToken ParenOpen "(" 0 0;
        mkToken Int "int" 0 0;
        mkToken Identifier "n" 0 0;
        mkToken ParenClose ")" 0 0;
        mkToken Colon ":" 0 0;
        mkToken Int "int" 0 0;
        mkToken BraceOpen "{" 0 0;
        mkToken Return "return" 0 0;
        mkToken IntegerLiteral "1" 0 0;
        mkToken SemiColon ";" 0 0;
        mkToken BraceClose "}" 0 0;
        end_of_input ],
      {| m_source := "function fib(int n) : int { return 1; }";
         m_pos := 39; m_start := 38 |}).
Proof. vm_compute. reflexivity. Qed.

Example scenario_a_eq_b :
  calls 5 (Lexer_new "a==b") =
  Ok ([ mkToken Identifier "a" 0 0; mkToken Equal "==" 0 0;
        mkToken Identifier "b" 0 0; end_of_input; end_of_input ],
      {| m_source := "a==b"; m_pos := 4; m_start := 3 |}).
Proof. vm_compute. reflexivity. Qed.

Example scenario_comment :
  calls 6 (Lexer_new ("rad = // calc" +:+ String "010" "pi / 180")) =
  Ok ([ mkToken Identifier "rad" 0 0; mkToken Assign "=" 0 0;
        mkToken Identifier "pi" 0 0; mkToken Divide "/" 0 0;
        mkToken IntegerLiteral "180" 0 0; end_of_input ],
      {| m_source := "rad = // calc" +:+ String "010" "pi / 180";
         m_pos := 22; m_start := 19 |}).
Proof. vm_compute. reflexivity. Qed.

Example scenario_empty :
  calls 2 (Lexer_new "") =
  Ok ([end_of_input; end_of_input], Lexer_new "").
Proof. vm_compute. reflexivity. Qed.

(** * Further properties of the scanner *)

Ltac concrete_cursor_of H :=
  let Ha := fresh in let Hb := fresh in let Hc := fresh in let Hd := fresh in
  pose proof H as (Ha & Hb & Hc & Hd); unfold cursor_ok; simpl; lia.

(** ** Kinds that are never produced *)

Lemma operator_kind (ch nx : ascii) : is_operator_kind (operator ch nx).1 = true.
Proof.
  unfold operator.
  destruct (Ascii.eqb nx "=");
    repeat (destruct (Ascii.eqb ch _); [reflexivity|]); reflexivity.
Qed.

Lemma keywordMap_kind (s : string) (k : TokenType) :
  keywordMap !! s = Some k → is_keyword_kind k = true.
Proof. intros Hk. by apply keywordMap_lookup, keywordTable_kind in Hk. Qed.

Lemma iteration_kind (lx : Lexer) (t : Token) (lx' : Lexer) :
  iteration lx = Ok (Return_ t lx') →
  type t = Identifier ∨ type t = IntegerLiteral ∨
  is_keyword_kind (type t) = true ∨ is_operator_kind (type t) = true.
Proof.
  unfold iteration, identifier, number, bind. intros H.
  repeat case_match; simplify_eq; simpl; eauto using keywordMap_kind.
  all: match goal with
  | Hop : operator ?c ?n = (?ty, _) |- _ =>
      pose proof (operator_kind c n) as Hk; rewrite Hop in Hk; eauto
  end.
Qed.

Lemma next_loop_kind (fuel : nat) (lx : Lexer) (t : Token) (lx' : Lexer) :
  next_loop fuel lx = Ok (t, lx') →
  type t = EndOfInput ∨ type t = Identifier ∨ type t = IntegerLiteral ∨
  is_keyword_kind (type t) = true ∨ is_operator_kind (type t) = true.
Proof.
  revert lx. induction fuel as [|fuel IH]; intros lx; simpl.
  - case_match; [done|]. intros [= <- _]. by left.
  - case_match; [|intros [= <- _]; by left].
    destruct (iteration lx) as [[lx1|t1 lx1]| |] eqn:Hit; simpl; try done.
    + apply IH.
    + intros [= -> ->]. right. by apply iteration_kind in Hit.
Qed.

(** X1: in whatever state the scanner is, the token [next] returns is
    never a [FloatLiteral] and never a [StringLiteral]: its kind is the
    sentinel, [Identifier], [IntegerLiteral], a keyword kind or one of the
    kinds of the switch. *)
Theorem float_and_string_literals_are_never_produced
    (lx : Lexer) (t : Token) (lx' : Lexer) :
  next lx = Ok (t, lx') →
  type t ≠ FloatLiteral ∧ type t ≠ StringLiteral ∧
  (type t = EndOfInput ∨ type t = Identifier ∨ type t = IntegerLiteral ∨
   is_keyword_kind (type t) = true ∨ is_operator_kind (type t) = true).
Proof.
  intros Hnext.
  assert (Hk : type t = EndOfInput ∨ type t = Identifier ∨
               type t = IntegerLiteral ∨ is_keyword_kind (type t) = true ∨
               is_operator_kind (type t) = true).
  { unfold next in Hnext. case_match.
    - injection Hnext as <- _. by left.
    - by apply next_loop_kind in Hnext. }
  split_and!; [| |done]; intros Heq; rewrite Heq in Hk; simpl in Hk;
    destruct Hk as [Hk|[Hk|[Hk|[Hk|Hk]]]]; discriminate Hk.
Qed.

Lemma float_and_string_literals_are_never_produced_witness :
  Invalid ≠ FloatLiteral ∧ Invalid ≠ StringLiteral.
Proof.
  pose proof (float_and_string_literals_are_never_produced
                (Lexer_new "'a' 1.5")
                (mkToken Invalid "'" 0 0)
                {| m_source := "'a' 1.5"; m_pos := 1; m_start := 0 |}) as H.
  simpl in H. destruct H as (H1 & H2 & _); [vm_compute; reflexivity|].
  by split.
Defined.

(** ** The shape of a lexeme *)



Lemma operator_width_cases (ch nx : ascii) :
  (operator_width ch nx = 1 ∧ (operator ch nx).2 = false) ∨
  (operator_width ch nx = 2 ∧ (operator ch nx).2 = true ∧ nx = "="%char).
Proof.
  unfold operator_width. destruct (operator ch nx) as [ty [|]] eqn:Hop; simpl.
  - right. split_and!; try done. by apply operator_extra in Hop.
  - by left.
Qed.



(** ** From the kind to the lexeme *)




(** ** When the sentinel is returned *)

Lemma append_same_tail (body s s1 s2 : string) :
  body +:+ s = s1 +:+ s2 →
  all_chars not_newline body = true →
  all_chars not_newline s1 = true →
  s2 = "" ∨ (∃ s2', s2 = String "010" s2') →
  ∃ s1', s = s1' +:+ s2 ∧ all_chars not_newline s1' = true.
Proof.
  revert s1. induction body as [|x body IH]; intros s1 Heq Hb Hs1 Hs2.
  - rewrite append_empty_l in Heq. eauto.
  - simpl in Hb. apply andb_prop in Hb as [Hx Hb].
    destruct s1 as [|y s1].
    + rewrite append_cons, append_empty_l in Heq. subst s2.
      destruct Hs2 as [?|[s2' [= -> _]]]; done.
    + rewrite !append_cons in Heq. injection Heq as _ Heq.
      simpl in Hs1. apply andb_prop in Hs1 as [_ Hs1]. by apply (IH s1).
Qed.

Lemma trivia_skip_line_aux (s : string) :
  trivia s →
  ∀ s1 s2, s = s1 +:+ s2 →
    all_chars not_newline s1 = true →
    s2 = "" ∨ (∃ s2', s2 = String "010" s2') →
    trivia s2.
Proof.
  induction 1 as [|c s Hc Ht IH|body s Hb Ht IH]; intros s1 s2 Heq Hnn Hs2.
  - destruct s1; [|discriminate Heq]. rewrite append_empty_l in Heq.
    subst s2. constructor.
  - destruct s1 as [|a s1].
    + rewrite append_empty_l in Heq. subst s2. by constructor.
    + rewrite append_cons in Heq. injection Heq as _ Heq.
      simpl in Hnn. apply andb_prop in Hnn as [_ Hnn]. by apply (IH s1).
  - rewrite !append_cons, append_empty_l in Heq.
    destruct s1 as [|a [|b s1]].
    + rewrite append_empty_l in Heq. subst s2.
      destruct Hs2 as [?|[s2' ?]]; done.
    + rewrite append_cons, append_empty_l in Heq. injection Heq as _ Heq.
      subst s2. destruct Hs2 as [?|[s2' ?]]; done.
    + rewrite !append_cons in Heq. injection Heq as _ _ Heq.
      simpl in Hnn. apply andb_prop in Hnn as [_ Hnn].
      apply andb_prop in Hnn as [_ Hnn].
      destruct (append_same_tail body s s1 s2 Heq Hb Hnn Hs2)
        as (s1' & Hs & Hnn').
      by apply (IH s1').
Qed.

Lemma slice_cons (src : string) (p : Z) :
  0 ≤ p → p < size src → size src ≤ INT_MAX →
  slice src p (size src) = String (char_at src p) (slice src (p + 1) (size src)).
Proof.
  intros H0 Hlt Hs. rewrite (slice_split src p (p + 1)) by lia.
  by rewrite slice_one by lia.
Qed.

Lemma trivia_after_line (src : string) (p q : Z) :
  0 ≤ p → p ≤ q → q ≤ size src → size src ≤ INT_MAX →
  trivia (slice src p (size src)) →
  (∀ i, p ≤ i < q → not_newline (char_at src i) = true) →
  (q < size src → char_at src q = "010"%char) →
  trivia (slice src q (size src)).
Proof.
  intros H0 Hpq Hq Hs Ht Hall Hstop.
  apply (trivia_skip_line_aux _ Ht (slice src p q)).
  - apply slice_split; lia.
  - by apply all_chars_slice.
  - destruct (decide (q = size src)) as [->|Hne].
    + left. apply slice_empty.
    + right. rewrite slice_cons by lia. rewrite Hstop by lia. eauto.
Qed.

Lemma trivia_at (src : string) (p : Z) :
  0 ≤ p → p < size src → size src ≤ INT_MAX →
  trivia (slice src p (size src)) →
  (is_blank (char_at src p) = true ∧ trivia (slice src (p + 1) (size src))) ∨
  (char_at src p = "/"%char ∧ peek src p = "/"%char).
Proof.
  intros H0 Hlt Hs Ht. rewrite slice_cons in Ht by done.
  apply trivia_cons_inv in Ht as [?|(Hc & s' & Hs')]; [by left|].
  right. split; [done|]. unfold peek.
  destruct (Z.ltb_spec (p + 1) (size src)) as [Hin|Hout].
  - rewrite slice_cons in Hs' by lia. by injection Hs' as -> _.
  - replace (p + 1) with (size src) in Hs' by lia.
    rewrite slice_empty in Hs'. discriminate Hs'.
Qed.

Lemma next_loop_trivia (fuel : nat) (lx : Lexer) :
  cursor_ok lx → size (m_source lx) - m_pos lx ≤ Z.of_nat fuel →
  trivia (slice (m_source lx) (m_pos lx) (size (m_source lx))) →
  ∃ lx', next_loop fuel lx = Ok (end_of_input, lx').
Proof.
  revert lx. induction fuel as [|fuel IH]; intros lx Hok Hfuel Ht;
    pose proof Hok as (Hst & Hsp & Hpl & Hfit).
  - exists lx. simpl. int_norm.
    by destruct (Z.ltb_spec (m_pos lx) (size (m_source lx))); [lia|].
  - simpl. int_norm.
    destruct (Z.ltb_spec (m_pos lx) (size (m_source lx))) as [Hlt|Hge];
      [|by exists lx].
    destruct (iteration_pass lx) as (f & Hf & Hpass); try lia.
    rewrite Hf. lx_simpl.
    destruct (trivia_at (m_source lx) (m_pos lx)) as [[Hblank Ht']|[Hc Hn]];
      try done; try lia;
      inversion Hpass as
        [ Hb | q Hb _ Hin _ Hpq Hqs Hall Hstop | q Ha _ | q _ Hn' _
        | w Hb Hnc Ha _ _ _ ]; subst f.
    + apply IH; [concrete_cursor_of Hok| |done]; simpl; lia.
    + congruence.
    + apply isalpha_class in Ha as (? & _). congruence.
    + apply isnumber_class in Hn' as (? & _). congruence.
    + congruence.
    + rewrite Hc in Hb. discriminate Hb.
    + apply IH; [concrete_cursor_of Hok|simpl; lia|]. simpl.
      apply (trivia_after_line _ (m_pos lx)); try done; try lia.
      intros i Hi. destruct (decide (i = m_pos lx)) as [->|?].
      { by rewrite Hc. }
      destruct (decide (i = m_pos lx + 1)) as [->|?].
      { unfold peek in Hn. rewrite (proj2 (Z.ltb_lt _ _) Hin) in Hn.
        by rewrite Hn. }
      apply Hall. lia.
    + rewrite Hc in Ha. discriminate Ha.
    + rewrite Hc in Hn'. discriminate Hn'.
    + by destruct Hnc.
Qed.

(** X4: from a state that satisfies the cursor invariant, [next] returns
    the sentinel exactly when everything from the cursor to the end of the
    source is blanks and comments. *)
Theorem sentinel_iff_only_trivia_remains (lx : Lexer) :
  cursor_ok lx →
  (∃ t lx', next lx = Ok (t, lx') ∧ type t = EndOfInput) ↔
  trivia (slice (m_source lx) (m_pos lx) (size (m_source lx))).
Proof.
  intros Hok. split.
  - intros (t & lx' & Hnext & Hty).
    by destruct (next_ok_post lx t lx' Hok Hnext)
      as (_ & _ & _ & _ & _ & [(_ & _ & Ht)|(Hne & _)]).
  - intros Ht. unfold next.
    destruct (size (m_source lx) =? 0); [by exists end_of_input, lx|].
    destruct (next_loop_trivia (String.length (m_source lx)) lx)
      as (lx' & Hloop); try done.
    { destruct Hok as (? & ? & _). unfold size. lia. }
    by exists end_of_input, lx'.
Qed.

Lemma sentinel_iff_only_trivia_remains_witness :
  trivia (slice "x  // done" 1 10) ∧
  ∃ t lx',
    next {| m_source := "x  // done"; m_pos := 1; m_start := 0 |} = Ok (t, lx')
    ∧ type t = EndOfInput.
Proof.
  pose proof (sentinel_iff_only_trivia_remains
                {| m_source := "x  // done"; m_pos := 1; m_start := 0 |}
                ltac:(concrete_cursor)) as [Hto Hfrom].
  assert (Ht : trivia (slice "x  // done" 1 10)).
  { apply Hto. eexists _, _. split; vm_compute; reflexivity. }
  split; [exact Ht|]. by apply Hfrom.
Defined.

(** ** Scanning a lexeme on its own *)











(** ** The display table and the loop of [main] *)

Lemma tokenTypeMap_total (k : TokenType) : is_Some (tokenTypeMap !! k).
Proof. destruct k; vm_compute; eauto. Qed.

Lemma map_index_tokenTypeMap (k : TokenType) :
  map_index tokenTypeMap k = (default "" (tokenTypeMap !! k), tokenTypeMap).
Proof.
  unfold map_index. by destruct (tokenTypeMap_total k) as [name ->].
Qed.

Lemma print_loop_spec (fuel : nat) (lx : Lexer) (cout : string) :
  cursor_ok lx → size (m_source lx) - m_pos lx < Z.of_nat fuel →
  ∃ ts lx_end,
    tokens fuel lx = Ok (ts, lx_end) ∧
    print_loop fuel lx tokenTypeMap cout = Ok (cout +:+ render ts, tokenTypeMap).
Proof.
  revert lx cout. induction fuel as [|fuel IH]; intros lx cout Hok Hfuel.
  { destruct Hok as (_ & _ & ? & _). lia. }
  destruct (next_spec lx Hok)
    as (t & lx1 & Hnext & Hsrc & Hok1 & Hmono & _ & _ & Hcases).
  cbn [tokens print_loop]. rewrite Hnext. lx_simpl.
  destruct Hcases as [(-> & Hend & _)|(Hty & Hps & Hsp & _)].
  - rewrite !decide_True by done. exists [], lx1.
    split; [done|]. cbn [render foldr]. by rewrite append_empty_r.
  - rewrite !decide_False by done. rewrite map_index_tokenTypeMap.
    destruct (IH lx1 ((((cout +:+ default "" (tokenTypeMap !! type t))
                          +:+ " : ") +:+ value t) +:+ LF))
      as (ts & lx_end & Htok & Hprint); [done| |].
    { rewrite Hsrc. lia. }
    rewrite Htok, Hprint. lx_simpl. exists (t :: ts), lx_end.
    split; [done|]. cbn [render foldr]. unfold line_of.
    by rewrite !append_assoc.
Qed.

(** X6: started on a scanner that satisfies the cursor invariant, with the
    display table as the source defines it, the loop of [main] ends; it has
    then written one line per token before the sentinel, in order, each
    made of the table's name for the kind, [" : "], the lexeme and a line
    feed; and the table is as it was, so that indexing it with a kind
    never inserted an entry. *)
Theorem print_loop_writes_the_tokens (lx : Lexer) (cout : string) :
  cursor_ok lx →
  ∃ ts lx_end,
    tokens (budget (m_source lx)) lx = Ok (ts, lx_end) ∧
    print_loop (budget (m_source lx)) lx tokenTypeMap cout =
      Ok (cout +:+ render ts, tokenTypeMap).
Proof.
  intros Hok. apply print_loop_spec; [done|].
  destruct Hok as (? & ? & _). unfold budget, size. lia.
Qed.

Lemma print_loop_writes_the_tokens_witness :
  ∃ ts lx_end,
    tokens (budget "x = 1") (Lexer_new "x = 1") = Ok (ts, lx_end) ∧
    print_loop (budget "x = 1") (Lexer_new "x = 1") tokenTypeMap "" =
      Ok ("" +:+ render ts, tokenTypeMap).
Proof.
  apply (print_loop_writes_the_tokens (Lexer_new "x = 1") "").
  concrete_cursor.
Defined.

Example main_returns_zero : ∃ cout, main = Ok (0, cout).
Proof. eexists. vm_compute. reflexivity. Qed.

(** ** The display name and the lexeme *)

Lemma keywordTable_display (s : string) (k : TokenType) :
  (s, k) ∈ keywordTable → tokenTypeMap !! k = Some s.
Proof.
  unfold keywordTable. rewrite !elem_of_cons, elem_of_nil.
  intros H. repeat (destruct H as [[= -> ->]|H]; [by vm_compute|]). done.
Qed.

Lemma operator_display (ch nx : ascii) :
  (operator ch nx).1 ≠ Invalid →
  tokenTypeMap !! (operator ch nx).1 =
  Some (String ch (if (operator ch nx).2 then "=" else "")).
Proof.
  unfold operator.
  repeat match goal with
  | |- context [Ascii.eqb ch ?x] =>
      destruct (Ascii.eqb_spec ch x) as [->|?];
        [destruct (Ascii.eqb nx "="); intros _; vm_compute; reflexivity|]
  end.
  intros H. exfalso. apply H. reflexivity.
Qed.

(** X7: the display table agrees with the scanner and with the keyword
    table.  Whenever [next] returns a token of a keyword kind, or of a
    kind of the switch other than [Invalid], the name the display table
    gives for the kind is the lexeme of the token; and the kind the
    keyword table gives for a spelling has that spelling as its name. *)
Theorem display_name_is_the_lexeme (lx : Lexer) (t : Token) (lx' : Lexer) :
  cursor_ok lx → next lx = Ok (t, lx') →
  (is_keyword_kind (type t) = true ∨
   (is_operator_kind (type t) = true ∧ type t ≠ Invalid) →
   tokenTypeMap !! type t = Some (value t)) ∧
  (∀ s k, keywordMap !! s = Some k → tokenTypeMap !! k = Some s).
Proof.
  intros Hok Hnext. split; [|intros s k Hk;
    by apply keywordTable_display, keywordMap_lookup].
  intros Hkind.
  assert (Hty : type t ≠ EndOfInput).
  { intros Heq. rewrite Heq in Hkind. by destruct Hkind as [?|[? _]]. }
  destruct (next_token_pass lx t lx' Hok Hnext Hty) as (Hpass & H0 & Hlt & Hfit).
  apply pass_return_inv in Hpass
    as [(Ha & Hrun & ->)|[(Ha & Hn & Hrun & ->)|(Hb & Ha & Hn & Hw & Hin & ->)]];
    cbn [type value] in *.
  - destruct (word_kind_cases
                (slice (m_source lx) (m_start lx') (m_pos lx')))
      as [[_ Hmem]|[Hid _]].
    + by apply keywordTable_display.
    + rewrite Hid in Hkind. by destruct Hkind as [?|[? _]].
  - by destruct Hkind as [?|[? _]].
  - destruct Hkind as [Hkw|[_ Hinv]].
    { pose proof (operator_kind (char_at (m_source lx) (m_start lx'))
                    (peek (m_source lx) (m_start lx'))) as Hk.
      by destruct (operator _ _).1. }
    rewrite (operator_display _ _ Hinv). f_equal. rewrite Hw.
    destruct (operator_width_cases (char_at (m_source lx) (m_start lx'))
                (peek (m_source lx) (m_start lx')))
      as [(-> & ->)|(-> & -> & Hnx)].
    + by rewrite slice_one by done.
    + apply peek_in_range in Hnx as [Hlt' Hc]; [|done].
      by rewrite slice_two, Hc by done.
Qed.

Lemma display_name_is_the_lexeme_witness :
  tokenTypeMap !! LesserEqual = Some "<=".
Proof.
  pose proof (display_name_is_the_lexeme
                {| m_source := "a<=b"; m_pos := 1; m_start := 0 |}
                (mkToken LesserEqual "<=" 0 0)
                {| m_source := "a<=b"; m_pos := 3; m_start := 1 |}
                ltac:(concrete_cursor) ltac:(vm_compute; reflexivity))
    as [H _].
  apply H. right. by split.
Defined.

(** * Properties of the first scanner *)

(** ** Pass by pass, the first scanner follows the second *)

Ltac both_simpl :=
  cbn [m_source m_pos m_start set_pos bind fst snd to_simple
       Simple.m_source Simple.m_pos Simple.m_start Simple.set_pos].

Lemma keyword_kind_simple (k : TokenType) :
  is_keyword_kind k = true →
  simple_kind k = Simple.Identifier ∧ is_two_char k = false.
Proof. by destruct k. Qed.

Lemma operator_simple (ch nx : ascii) :
  simple_kind (operator ch nx).1 = Simple.operator ch ∧
  is_two_char (operator ch nx).1 = (operator ch nx).2.
Proof.
  unfold operator, Simple.operator.
  repeat match goal with
  | |- context [Ascii.eqb ch ?x] =>
      destruct (Ascii.eqb_spec ch x) as [->|?];
        [destruct (Ascii.eqb nx "="); by vm_compute|]
  end.
  done.
Qed.

Lemma string_sub_one (s : string) (a : Z) :
  0 ≤ a → a < size s → size s ≤ INT_MAX →
  string_sub s a 1 = Ok (slice s a (a + 1)).
Proof.
  intros Ha Hlt Hs. replace 1 with (a + 1 - a) at 1 by lia.
  apply string_sub_slice; lia.
Qed.

Lemma simple_iteration_agrees (lx : Lexer) :
  0 ≤ m_pos lx → m_pos lx < size (m_source lx) → size (m_source lx) ≤ INT_MAX →
  ∃ f, iteration lx = Ok f ∧
       Simple.iteration (to_simple lx) = Ok (simple_flow f).
Proof.
  destruct lx as [src pos st]. simpl. intros H0 Hlt Hs.
  unfold iteration, Simple.iteration. both_simpl. int_norm.
  destruct (is_blank (char_at src pos)) eqn:Hblank.
  { eexists. split; reflexivity. }
  destruct (Z.ltb_spec (pos + 1) (size src)) as [Hin|Hout]; cycle 1.
  { (* the last character of the source *)
    rewrite !andb_false_r. cbn [andb].
    destruct (isalpha (char_at src pos)) eqn:Halpha.
    { unfold identifier, Simple.identifier. both_simpl.
      destruct (advance_while_spec isalnum src (budget src) (pos + 1))
        as (q & Hq & Hpq & Hqs & _); try lia;
        try (pose proof (budget_enough src (pos + 1)); lia).
      rewrite Hq. both_simpl. int_norm. rewrite string_sub_slice by lia.
      both_simpl. unfold simple_flow, simple_token, simple_state.
      destruct (keywordMap !! slice src pos q) as [kw|] eqn:Hkw;
        eexists; (split; [reflexivity|]); cbn [type value]; [|done].
      apply keywordMap_kind, keyword_kind_simple in Hkw as [-> ->]. done. }
    destruct (isnumber (char_at src pos)) eqn:Hnum.
    { unfold number, Simple.number. both_simpl.
      destruct (advance_while_spec isnumber src (budget src) (pos + 1))
        as (q & Hq & Hpq & Hqs & _); try lia;
        try (pose proof (budget_enough src (pos + 1)); lia).
      rewrite Hq. both_simpl. int_norm. rewrite string_sub_slice by lia.
      both_simpl. eexists. split; reflexivity. }
    destruct (operator (char_at src pos) "000") as [ty extra] eqn:Hop.
    pose proof (operator_simple (char_at src pos) "000") as [Hk Htwo].
    rewrite Hop in Hk, Htwo. simpl in Hk, Htwo.
    destruct extra; [by apply operator_extra in Hop|].
    both_simpl. int_norm.
    rewrite string_sub_slice, string_sub_one by lia. both_simpl.
    eexists. split; [reflexivity|].
    unfold simple_flow, simple_token, simple_state. cbn [type value].
    by rewrite Hk, Htwo. }
  destruct (Ascii.eqb (char_at src pos) "/" && true
            && Ascii.eqb (char_at src (pos + 1)) "/") eqn:Hcomment.
  { destruct (skip_comment_spec src (budget src) (pos + 1))
      as (q & Hq & Hpq & Hqs & _); try lia;
      try (pose proof (budget_enough src (pos + 1)); lia).
    rewrite Hq. both_simpl. eexists. split; reflexivity. }
  clear Hcomment.
  destruct (isalpha (char_at src pos)) eqn:Halpha.
  { unfold identifier, Simple.identifier. both_simpl.
    destruct (advance_while_spec isalnum src (budget src) (pos + 1))
      as (q & Hq & Hpq & Hqs & _); try lia;
      try (pose proof (budget_enough src (pos + 1)); lia).
    rewrite Hq. both_simpl. int_norm. rewrite string_sub_slice by lia.
    both_simpl. unfold simple_flow, simple_token, simple_state.
    destruct (keywordMap !! slice src pos q) as [kw|] eqn:Hkw;
      eexists; (split; [reflexivity|]); cbn [type value]; [|done].
    apply keywordMap_kind, keyword_kind_simple in Hkw as [-> ->]. done. }
  destruct (isnumber (char_at src pos)) eqn:Hnum.
  { unfold number, Simple.number. both_simpl.
    destruct (advance_while_spec isnumber src (budget src) (pos + 1))
      as (q & Hq & Hpq & Hqs & _); try lia;
      try (pose proof (budget_enough src (pos + 1)); lia).
    rewrite Hq. both_simpl. int_norm. rewrite string_sub_slice by lia.
    both_simpl. eexists. split; reflexivity. }
  destruct (operator (char_at src pos) (char_at src (pos + 1)))
    as [ty extra] eqn:Hop.
  pose proof (operator_simple (char_at src pos) (char_at src (pos + 1)))
    as [Hk Htwo].
  rewrite Hop in Hk, Htwo. simpl in Hk, Htwo.
  destruct extra; both_simpl; int_norm.
  - apply operator_extra in Hop as Hnx.
    rewrite string_sub_slice, string_sub_one by lia. both_simpl.
    eexists. split; [reflexivity|].
    unfold simple_flow, simple_token, simple_state. cbn [type value].
    rewrite Hk, Htwo. both_simpl.
    replace (pos + 1 + 1) with (pos + 2) by lia.
    by rewrite slice_two, slice_one by lia.
  - rewrite string_sub_slice, string_sub_one by lia. both_simpl.
    eexists. split; [reflexivity|].
    unfold simple_flow, simple_token, simple_state. cbn [type value].
    by rewrite Hk, Htwo.
Qed.

Lemma simple_next_loop_agrees (fuel : nat) (lx : Lexer) (t : Token) (lx' : Lexer) :
  cursor_ok lx → next_loop fuel lx = Ok (t, lx') →
  Simple.next_loop fuel (to_simple lx) = Ok (simple_token t, simple_state t lx').
Proof.
  revert lx. induction fuel as [|fuel IH]; intros lx Hok;
    pose proof Hok as (Hst & Hsp & Hpl & Hfit); simpl; both_simpl.
  - destruct (to_size_t (m_pos lx) <? size (m_source lx)); [done|].
    by intros [= <- <-].
  - int_norm.
    destruct (Z.ltb_spec (m_pos lx) (size (m_source lx))) as [Hlt|Hge];
      [|by intros [= <- <-]].
    destruct (simple_iteration_agrees lx) as (f & Hf & Hsf); try lia.
    destruct (iteration_pass lx) as (f' & Hf' & Hpass); try lia.
    rewrite Hf in Hf'. injection Hf' as <-.
    pose proof (pass_flow_ok lx f ltac:(lia) Hlt Hfit Hpass) as Hflow.
    rewrite Hf, Hsf. both_simpl. destruct f as [lx1|t1 lx1]; simpl in Hflow |- *.
    + destruct Hflow as (Hsrc & Hstart & Hadv & Hin & _).
      apply IH. unfold cursor_ok. rewrite Hsrc, Hstart. lia.
    + by intros [= <- <-].
Qed.

Lemma simple_next_agrees (lx : Lexer) (t : Token) (lx' : Lexer) :
  cursor_ok lx → next lx = Ok (t, lx') →
  Simple.next (to_simple lx) = Ok (simple_token t, simple_state t lx').
Proof.
  intros Hok. unfold next, Simple.next. both_simpl.
  destruct (size (m_source lx) =? 0); [by intros [= <- <-]|].
  by apply simple_next_loop_agrees.
Qed.

(** X8: the scanner of [lexer.cpp] follows the scanner of
    [lexer-advanced.cpp].  From the same state, when the second returns a
    token that is no two-character operator, the first returns the same
    lexeme and reaches the same state, and its kind is the coarser one
    ([Identifier] for keywords, [Number] for integer literals, [Invalid]
    for the operators it does not know); when the second returns a
    two-character operator, the first returns the first character alone
    and stops one character behind the start marker. *)
Theorem first_scanner_follows_second (lx : Lexer) (t : Token) (lx' : Lexer) :
  cursor_ok lx → next lx = Ok (t, lx') →
  Simple.next (to_simple lx) = Ok (simple_token t, simple_state t lx').
Proof.
  intros Hok. unfold next, Simple.next. both_simpl.
  destruct (size (m_source lx) =? 0); [by intros [= <- <-]|].
  by apply simple_next_loop_agrees.
Qed.

Lemma first_scanner_follows_second_witness :
  Simple.next (Simple.Lexer_new "== 1") =
  Ok (Simple.mkToken Simple.Assign "=",
      {| Simple.m_source := "== 1"; Simple.m_pos := 1; Simple.m_start := 0 |}).
Proof.
  apply (first_scanner_follows_second (Lexer_new "== 1")
           (mkToken Equal "==" 0 0)
           {| m_source := "== 1"; m_pos := 2; m_start := 0 |});
    [concrete_cursor | vm_compute; reflexivity].
Defined.

(** ** One call of the first scanner *)

Lemma to_simple_of_simple (s : Simple.Lexer) : to_simple (of_simple s) = s.
Proof. by destruct s. Qed.

Lemma simple_cursor_ok (s : Simple.Lexer) :
  Simple.cursor_ok s ↔ cursor_ok (of_simple s).
Proof. by destruct s. Qed.

Lemma pass_return_state (src : string) (p : Z) (t : Token) (lx' : Lexer) :
  0 ≤ p → p < size src → size src ≤ INT_MAX →
  pass src p (Return_ t lx') →
  m_source lx' = src ∧ m_start lx' = p ∧ p < m_pos lx' ∧ m_pos lx' ≤ size src.
Proof.
  intros H0 Hlt Hs Hpass.
  pose proof (pass_flow_ok {| m_source := src; m_pos := p; m_start := 0 |}
                (Return_ t lx') H0 Hlt Hs Hpass) as Hflow.
  simpl in Hflow. by destruct Hflow as (? & ? & ? & ? & _).
Qed.

Lemma word_kind_simple (w : string) :
  simple_kind (word_kind w) = Simple.Identifier ∧
  is_two_char (word_kind w) = false.
Proof.
  destruct (word_kind_cases w) as [[Hk _]|[-> _]]; [|done].
  by apply keyword_kind_simple.
Qed.

(** The token and the state of the first scanner that come from a token
    of the second. *)
Lemma simple_token_shape (src : string) (p : Z) (t : Token) (lx' : Lexer) :
  0 ≤ p → p < size src → size src ≤ INT_MAX →
  pass src p (Return_ t lx') →
  Simple.m_source (simple_state t lx') = src ∧
  Simple.m_start (simple_state t lx') = p ∧
  p < Simple.m_pos (simple_state t lx') ∧
  Simple.m_pos (simple_state t lx') ≤ size src ∧
  Simple.value (simple_token t) = slice src p (Simple.m_pos (simple_state t lx')) ∧
  Simple.kind (simple_token t) ≠ Simple.EndOfInput.
Proof.
  intros H0 Hlt Hs Hpass.
  destruct (pass_return_state src p t lx' H0 Hlt Hs Hpass)
    as (Hsrc & Hstart & Hadv & Hin).
  unfold simple_state, simple_token. cbn [Simple.value Simple.kind].
  apply pass_return_inv in Hpass
    as [(_ & _ & ->)|[(_ & _ & _ & ->)|(_ & _ & _ & Hw & _ & ->)]];
    cbn [type value].
  - destruct (word_kind_simple (slice src p (m_pos lx'))) as [-> ->].
    destruct lx'; simpl in *. by subst.
  - destruct lx'; simpl in *. by subst.
  - destruct (operator_simple (char_at src p) (peek src p)) as [Hk ->].
    pose proof (operator_kind (char_at src p) (peek src p)) as Hop.
    assert (Hne : simple_kind (operator (char_at src p) (peek src p)).1
                  ≠ Simple.EndOfInput).
    { by destruct (operator (char_at src p) (peek src p)).1. }
    destruct (operator_width_cases (char_at src p) (peek src p))
      as [(Hone & ->)|(Htwo & -> & Hnx)].
    + destruct lx'; simpl in *. by subst.
    + apply peek_in_range in Hnx as [Hlt' Hc]; [|done].
      rewrite Hw, Htwo, slice_two by done.
      destruct lx'; simpl in *. subst.
      split_and!; try done; try lia. by rewrite slice_one by done.
Qed.

Lemma simple_next_spec (s : Simple.Lexer) :
  Simple.cursor_ok s →
  ∃ t s',
    Simple.next s = Ok (t, s') ∧
    Simple.m_source s' = Simple.m_source s ∧
    Simple.cursor_ok s' ∧
    Simple.m_pos s ≤ Simple.m_pos s' ∧
    ((t = Simple.end_of_input ∧
      Simple.m_pos s' = size (Simple.m_source s) ∧
      trivia (slice (Simple.m_source s) (Simple.m_pos s)
                (size (Simple.m_source s))))
     ∨
     (Simple.kind t ≠ Simple.EndOfInput ∧
      Simple.m_pos s ≤ Simple.m_start s' ∧
      Simple.m_start s' < Simple.m_pos s' ∧
      trivia (slice (Simple.m_source s) (Simple.m_pos s) (Simple.m_start s')) ∧
      Simple.value t =
        slice (Simple.m_source s) (Simple.m_start s') (Simple.m_pos s') ∧
      ∃ ta lxa,
        pass (Simple.m_source s) (Simple.m_start s') (Return_ ta lxa) ∧
        t = simple_token ta ∧ s' = simple_state ta lxa)).
Proof.
  intros Hok. pose proof (proj1 (simple_cursor_ok s) Hok) as Hoka.
  destruct (next_spec (of_simple s) Hoka) as (ta & lxa & Hnext & Hpost).
  pose proof (simple_next_agrees _ _ _ Hoka Hnext) as Hsim.
  rewrite to_simple_of_simple in Hsim.
  exists (simple_token ta), (simple_state ta lxa). split; [done|].
  destruct Hpost as (Hsrc & Hok' & Hmono & _ & _ & Hcases).
  destruct Hoka as (Hst & Hsp & Hpl & Hfit).
  cbn [of_simple m_source m_pos m_start] in *.
  set (src := Simple.m_source s) in *. set (pos := Simple.m_pos s) in *.
  destruct Hcases as [(-> & Hend & Htriv)|(Hty & Hps & Hsp' & Htriv & Hval & Hpass)].
  - assert (Hstate : simple_state end_of_input lxa = to_simple lxa) by done.
    rewrite Hstate. clear Hstate.
    cbn [to_simple Simple.m_source Simple.m_pos Simple.m_start].
    split; [done|]. split.
    { destruct Hok' as (? & ? & ? & ?). unfold Simple.cursor_ok.
      by cbn [Simple.m_source Simple.m_pos Simple.m_start]. }
    split; [done|]. by left.
  - assert (Hpa : 0 ≤ m_start lxa ∧ m_start lxa < size src).
    { destruct Hok' as (? & ? & ? & _). rewrite Hsrc in *. lia. }
    destruct (simple_token_shape src (m_start lxa) ta lxa)
      as (Hs1 & Hs2 & Hs3 & Hs4 & Hs5 & Hs6); try done; try lia.
    split_and!; try done.
    + unfold Simple.cursor_ok. rewrite Hs1, Hs2. fold src. lia.
    + lia.
    + right. rewrite Hs2. split_and!; try done; try lia. eauto.
Qed.

Lemma simple_next_ok_post (s : Simple.Lexer) (t : Simple.Token) (s' : Simple.Lexer) :
  Simple.cursor_ok s → Simple.next s = Ok (t, s') →
  Simple.m_source s' = Simple.m_source s ∧
  Simple.cursor_ok s' ∧
  Simple.m_pos s ≤ Simple.m_pos s' ∧
  ((t = Simple.end_of_input ∧
    Simple.m_pos s' = size (Simple.m_source s) ∧
    trivia (slice (Simple.m_source s) (Simple.m_pos s)
              (size (Simple.m_source s))))
   ∨
   (Simple.kind t ≠ Simple.EndOfInput ∧
    Simple.m_pos s ≤ Simple.m_start s' ∧
    Simple.m_start s' < Simple.m_pos s' ∧
    trivia (slice (Simple.m_source s) (Simple.m_pos s) (Simple.m_start s')) ∧
    Simple.value t =
      slice (Simple.m_source s) (Simple.m_start s') (Simple.m_pos s') ∧
    ∃ ta lxa,
      pass (Simple.m_source s) (Simple.m_start s') (Return_ ta lxa) ∧
      t = simple_token ta ∧ s' = simple_state ta lxa)).
Proof.
  intros Hok Hnext.
  destruct (simple_next_spec s Hok) as (t0 & s0 & Heq & Hpost).
  rewrite Hnext in Heq. by injection Heq as -> ->.
Qed.

Lemma simple_next_at_end (s : Simple.Lexer) :
  Simple.cursor_ok s → Simple.m_pos s = size (Simple.m_source s) →
  Simple.next s = Ok (Simple.end_of_input, s).
Proof.
  intros (Hst & Hsp & Hpl & Hfit) Hend. unfold Simple.next.
  destruct (size (Simple.m_source s) =? 0); [done|].
  destruct (String.length (Simple.m_source s)); simpl; int_norm;
    by rewrite Hend, Z.ltb_irrefl.
Qed.

(** ** The cursor of the first scanner *)

Lemma simple_reachable_ok (src : string) (s : Simple.Lexer) :
  size src ≤ INT_MAX → Simple.reachable src s →
  Simple.m_source s = src ∧ Simple.cursor_ok s.
Proof.
  intros Hs Hr. induction Hr as [|s t s' _ [Hsrc Hok] Hnext].
  - split; [done|]. unfold Simple.cursor_ok, size in *. simpl. lia.
  - destruct (simple_next_ok_post s t s' Hok Hnext) as (Hsrc' & Hok' & _).
    split; [congruence|done].
Qed.

(** X9: in every state the scanner of [lexer.cpp] goes through on a source
    of length [L] that an [int] can index, [0 <= m_start <= m_pos <= L];
    the next call returns a token, neither raising [std::out_of_range] nor
    looping, and leaves [m_pos] where it was or further on, never beyond
    [L]; and once [m_pos] is [L], the call returns the sentinel and
    changes nothing. *)
Theorem simple_cursor_invariant (src : string) (s : Simple.Lexer) :
  size src ≤ INT_MAX → Simple.reachable src s →
  Simple.m_source s = src ∧
  0 ≤ Simple.m_start s ∧ Simple.m_start s ≤ Simple.m_pos s ∧
  Simple.m_pos s ≤ size src ∧
  ∃ t s',
    Simple.next s = Ok (t, s') ∧
    Simple.m_pos s ≤ Simple.m_pos s' ∧ Simple.m_pos s' ≤ size src ∧
    (Simple.m_pos s = size src → t = Simple.end_of_input ∧ s' = s).
Proof.
  intros Hs Hr. destruct (simple_reachable_ok src s Hs Hr) as [Hsrc Hok].
  pose proof Hok as (Hst & Hsp & Hpl & _). rewrite Hsrc in Hpl.
  split_and!; try done.
  destruct (simple_next_spec s Hok)
    as (t & s' & Hnext & Hsrc' & Hok' & Hmono & _).
  exists t, s'. split_and!; try done.
  - destruct Hok' as (_ & _ & Hpl' & _). by rewrite Hsrc', Hsrc in Hpl'.
  - intros Hend. rewrite <- Hsrc in Hend.
    rewrite simple_next_at_end in Hnext by done. by injection Hnext as <- <-.
Qed.

Lemma simple_cursor_invariant_witness :
  let s := {| Simple.m_source := "a /"; Simple.m_pos := 1; Simple.m_start := 0 |} in
  0 ≤ Simple.m_start s ∧ Simple.m_start s ≤ Simple.m_pos s ∧
  Simple.m_pos s ≤ 3 ∧
  ∃ t s',
    Simple.next s = Ok (t, s') ∧
    Simple.m_pos s ≤ Simple.m_pos s' ∧ Simple.m_pos s' ≤ 3 ∧
    (Simple.m_pos s = 3 → t = Simple.end_of_input ∧ s' = s).
Proof.
  apply (simple_cursor_invariant "a /").
  - unfold INT_MAX, size. simpl. lia.
  - apply (Simple.reachable_next _ (Simple.Lexer_new "a /")
             (Simple.mkToken Simple.Identifier "a")).
    + constructor.
    + vm_compute. reflexivity.
Defined.

(** ** The first scanner over a whole source *)

Lemma simple_spans_spec (fuel : nat) (s : Simple.Lexer) :
  Simple.cursor_ok s →
  size (Simple.m_source s) - Simple.m_pos s < Z.of_nat fuel →
  ∃ ps ts s_end,
    Simple.spans fuel s = Ok ps ∧ Simple.tokens fuel s = Ok (ts, s_end) ∧
    ps.*2 = ((Simple.value <$> ts) ++ [""])%list ∧
    Forall (λ p, trivia p.1) ps ∧
    Forall (λ t, Simple.kind t ≠ Simple.EndOfInput) ts ∧
    Z.of_nat (length ts) ≤ size (Simple.m_source s) - Simple.m_pos s ∧
    join ps = slice (Simple.m_source s) (Simple.m_pos s)
                (size (Simple.m_source s)).
Proof.
  revert s. induction fuel as [|fuel IH]; intros s Hok Hfuel.
  { destruct Hok as (_ & _ & ? & _). lia. }
  destruct (simple_next_spec s Hok)
    as (t & s1 & Hnext & Hsrc & Hok1 & Hmono & Hcases).
  cbn [Simple.spans Simple.tokens]. rewrite Hnext. lx_simpl.
  destruct Hcases as [(-> & Hend & Htriv)|(Hty & Hps & Hsp & Htriv & Hval & _)].
  - rewrite !decide_True by done. rewrite Hend.
    eexists _, [], s1. split_and!; try done.
    + by repeat constructor.
    + destruct Hok as (_ & _ & ? & _). simpl. lia.
    + unfold join. simpl. by rewrite !append_empty_r.
  - rewrite !decide_False by done.
    destruct (IH s1)
      as (ps & ts & s_end & Hspans & Htok & Hlex & Hall & Hkinds & Hlen & Hjoin);
      [done| |].
    { rewrite Hsrc. lia. }
    rewrite Hspans, Htok. lx_simpl. rewrite Hsrc in Hlen.
    eexists _, (t :: ts), s_end. split_and!; try done.
    + by rewrite !fmap_cons, Hlex.
    + by constructor.
    + by constructor.
    + simpl. lia.
    + unfold join in *. simpl. rewrite Hjoin, Hval, Hsrc.
      pose proof Hok1 as (_ & _ & Hpl1 & _). rewrite Hsrc in Hpl1.
      pose proof Hok as (Hst0 & Hsp0 & _).
      rewrite <- (slice_split _ (Simple.m_start s1) (Simple.m_pos s1)) by lia.
      by rewrite <- (slice_split _ (Simple.m_pos s) (Simple.m_start s1)) by lia.
Qed.

(** X10: on a source that an [int] can index, the loop of the [main] of
    [lexer.cpp] ends after at most as many tokens as the source has
    characters, none of them the sentinel; the texts passed over and the
    lexemes of the successive calls concatenate in order to the source;
    and every text passed over consists of blanks and comments only. *)
Theorem simple_lexemes_and_trivia_cover_source (src : string) :
  size src ≤ INT_MAX →
  ∃ ps ts s_end,
    Simple.spans (budget src) (Simple.Lexer_new src) = Ok ps ∧
    Simple.tokens (budget src) (Simple.Lexer_new src) = Ok (ts, s_end) ∧
    ps.*2 = ((Simple.value <$> ts) ++ [""])%list ∧
    Forall (λ p, trivia p.1) ps ∧
    Forall (λ t, Simple.kind t ≠ Simple.EndOfInput) ts ∧
    (length ts ≤ String.length src)%nat ∧
    join ps = src.
Proof.
  intros Hs.
  destruct (simple_spans_spec (budget src) (Simple.Lexer_new src))
    as (ps & ts & s_end & Hspans & Htok & Hlex & Hall & Hkinds & Hlen & Hjoin).
  { unfold Simple.cursor_ok, size in *. simpl. lia. }
  { unfold budget, size. simpl. lia. }
  exists ps, ts, s_end. split_and!; try done.
  - unfold size in Hlen. simpl in Hlen. lia.
  - simpl in Hjoin. by rewrite slice_all in Hjoin.
Qed.

Lemma simple_lexemes_and_trivia_cover_source_witness :
  ∃ ps ts s_end,
    Simple.spans (budget "a == 1") (Simple.Lexer_new "a == 1") = Ok ps ∧
    Simple.tokens (budget "a == 1") (Simple.Lexer_new "a == 1") = Ok (ts, s_end) ∧
    ps.*2 = ((Simple.value <$> ts) ++ [""])%list ∧
    Forall (λ p, trivia p.1) ps ∧
    Forall (λ t, Simple.kind t ≠ Simple.EndOfInput) ts ∧
    (length ts ≤ 6)%nat ∧
    join ps = "a == 1".
Proof.
  apply (simple_lexemes_and_trivia_cover_source "a == 1").
  unfold INT_MAX, size. simpl. lia.
Defined.

(** ** The kinds of the first scanner *)



Example simple_scanner_has_no_keywords_and_no_munch :
  Simple.tokens 9 (Simple.Lexer_new "if a>=1 == b") =
  Ok ([ Simple.mkToken Simple.Identifier "if";
        Simple.mkToken Simple.Identifier "a";
        Simple.mkToken Simple.Invalid ">";
        Simple.mkToken Simple.Assign "=";
        Simple.mkToken Simple.Number "1";
        Simple.mkToken Simple.Assign "=";
        Simple.mkToken Simple.Assign "=";
        Simple.mkToken Simple.Identifier "b" ],
      {| Simple.m_source := "if a>=1 == b"; Simple.m_pos := 12;
         Simple.m_start := 11 |}).
Proof. vm_compute. reflexivity. Qed.

(** ** The [main] of the first scanner *)

Lemma kindMap_total (k : Simple.Kind) : is_Some (Simple.kindMap !! k).
Proof. destruct k; vm_compute; eauto. Qed.

Lemma map_index_kindMap (k : Simple.Kind) :
  Simple.map_index Simple.kindMap k =
  (default "" (Simple.kindMap !! k), Simple.kindMap).
Proof.
  unfold Simple.map_index. by destruct (kindMap_total k) as [name ->].
Qed.

Lemma simple_print_loop_spec (fuel : nat) (s : Simple.Lexer) (cout : string) :
  Simple.cursor_ok s →
  size (Simple.m_source s) - Simple.m_pos s < Z.of_nat fuel →
  ∃ ts s_end,
    Simple.tokens fuel s = Ok (ts, s_end) ∧
    Simple.print_loop fuel s Simple.kindMap cout =
      Ok (cout +:+ Simple.render ts, Simple.kindMap).
Proof.
  revert s cout. induction fuel as [|fuel IH]; intros s cout Hok Hfuel.
  { destruct Hok as (_ & _ & ? & _). lia. }
  destruct (simple_next_spec s Hok)
    as (t & s1 & Hnext & Hsrc & Hok1 & Hmono & Hcases).
  cbn [Simple.tokens Simple.print_loop]. rewrite Hnext. lx_simpl.
  destruct Hcases as [(-> & Hend & _)|(Hty & Hps & Hsp & _)].
  - rewrite !decide_True by done. exists [], s1.
    split; [done|]. cbn [Simple.render foldr]. by rewrite append_empty_r.
  - rewrite !decide_False by done. rewrite map_index_kindMap.
    destruct (IH s1 ((((cout +:+ default "" (Simple.kindMap !! Simple.kind t))
                          +:+ " : ") +:+ Simple.value t) +:+ LF))
      as (ts & s_end & Htok & Hprint); [done| |].
    { rewrite Hsrc. lia. }
    rewrite Htok, Hprint. lx_simpl. exists (t :: ts), s_end.
    split; [done|]. cbn [Simple.render foldr]. unfold Simple.line_of.
    by rewrite !append_assoc.
Qed.

(** X12: started on a scanner that satisfies the cursor invariant, with
    [kindMap] as the source defines it, the loop of the [main] of
    [lexer.cpp] ends, having written one line per token before the
    sentinel, and [kindMap] is as it was: indexing it never inserted an
    entry.  Run on the expression of [main], the program writes the five
    lines that the comment of lines 166-171 announces, and returns 0. *)
Theorem simple_main_writes_the_expected_lines :
  (∀ s cout,
     Simple.cursor_ok s →
     ∃ ts s_end,
       Simple.tokens (budget (Simple.m_source s)) s = Ok (ts, s_end) ∧
       Simple.print_loop (budget (Simple.m_source s)) s Simple.kindMap cout =
         Ok (cout +:+ Simple.render ts, Simple.kindMap)) ∧
  Simple.main =
    Ok (0, "Identifier : rad" +:+ LF +:+
           "Assign : =" +:+ LF +:+
           "Identifier : pi" +:+ LF +:+
           "Divide : /" +:+ LF +:+
           "Number : 180" +:+ LF).
Proof.
  split; [|by vm_compute].
  intros s cout Hok. apply simple_print_loop_spec; [done|].
  destruct Hok as (? & ? & _). unfold budget, size. lia.
Qed.

Lemma simple_main_writes_the_expected_lines_witness :
  ∃ ts s_end,
    Simple.tokens (budget "x/2") (Simple.Lexer_new "x/2") = Ok (ts, s_end) ∧
    Simple.print_loop (budget "x/2") (Simple.Lexer_new "x/2") Simple.kindMap "" =
      Ok ("" +:+ Simple.render ts, Simple.kindMap).
Proof.
  apply (proj1 simple_main_writes_the_expected_lines (Simple.Lexer_new "x/2") "").
  unfold Simple.cursor_ok, INT_MAX, size. simpl. lia.
Defined.

(** * Slashes and comments in the second scanner *)




